(** * Character aggregator of the status-effect system (character.ts)

    A shallow embedding of [src/source/character.ts]: the [Character] class,
    its property-recomputation pass, the attachment and destruction protocol of
    status effects, the client-side reconciliation callback and the accessors
    of the baseline properties and of the global character map.

    Objects that the program shares by reference (property tables, maps of
    characters, characters, status effects, humanoids) live in heaps: a heap
    is a list, a reference is an index into it, and allocation appends, so
    that a fresh reference is the length of the heap.  Signals that have no
    listener inside the file are recorded in a trace, and so are the calls to
    the shared-state producer. *)

From Stdlib Require Import QArith Qround.
From stdpp Require Import base option list strings gmap.

Open Scope string_scope.
Open Scope list_scope.
Open Scope stdpp_scope.

(** ** Numbers

    A Luau [number] is a double; the embedding takes exact rationals, which
    agree with doubles on every value the statements below compute (small
    integers and their sums).  NaN and the infinities are left out. *)

Definition number : Type := Q.
Bind Scope Q_scope with number.

(** The truthiness of a number in a condition: [0] is falsy. *)
Definition truthy (n : number) : bool := negb (Qeq_bool n 0).

(** [a > b] on numbers. *)
Definition gt (a b : number) : bool := negb (Qle_bool a b).

(** ** Data model *)

(** [AffectableHumanoidProps]: the four movement properties. *)
Record AffectableHumanoidProps : Type := mkProps {
  WalkSpeed : number;
  JumpPower : number;
  AutoRotate : bool;
  JumpHeight : number;
}.

(** The override record of an effect, [Partial<AffectableHumanoidProps>]:
    a property is present or absent. *)
Record PartialProps : Type := mkPartial {
  pWalkSpeed : option number;
  pJumpPower : option number;
  pAutoRotate : option bool;
  pJumpHeight : option number;
}.

Definition noProps : PartialProps := mkPartial None None None None.

Inductive Mode : Type := Increment | SetMode.

(** The humanoid data of a status effect. *)
Record HumanoidData : Type := mkHumanoidData {
  Props : PartialProps;
  mode : Mode;
  Priority : number;
}.

(** References into the heaps and opaque engine handles. *)
Abbreviation loc := nat (only parsing).       (* a property table *)
Abbreviation mref := nat (only parsing).      (* a Map<Instance, Character> *)
Abbreviation cref := nat (only parsing).      (* a Character *)
Abbreviation eref := nat (only parsing).      (* a StatusEffect *)
Abbreviation href := nat (only parsing).      (* a Humanoid *)
Abbreviation Instance := positive (only parsing).

(** ** The merge loop of [updateHumanoidProps] (lines 89-118)

    The loop mutates three locals: the table [propsToApply] (a fresh clone
    that no one else holds), the record [incPriorityList] and the variable
    [previousSetMPriority].  They are threaded as one state. *)

Record IncPriority : Type := mkInc {
  incWalkSpeed : number;
  incJumpPower : number;
  incAutoRotate : number;
  incJumpHeight : number;
}.

Record MergeState : Type := mkMerge {
  propsToApply : AffectableHumanoidProps;
  incPriorityList : IncPriority;
  previousSetMPriority : option number;
}.

Definition incPriorityList0 : IncPriority := mkInc 0 0 0 0.

Definition mergeInit (defaults : AffectableHumanoidProps) : MergeState :=
  mkMerge defaults incPriorityList0 None.

(** [!previousSetMPriority]: [undefined] and [0] are both falsy. *)
Definition notPrevious (p : option number) : bool :=
  match p with
  | None => true
  | Some n => negb (truthy n)
  end.

(** A numeric override is added to the running value (line 106). *)
Definition addNumber (v : option number) (cur : number) : number :=
  match v with
  | Some x => (x + cur)%Q
  | None => cur
  end.

(** The inner loop of the Increment branch (lines 104-111).  The three
    numeric properties pass [typeIs(Value, "number")]; [AutoRotate] is a
    boolean and takes the priority branch.  Each iteration reads and writes
    the entries of its own property only, so the order of [pairs] is
    immaterial. *)
Definition applyIncrement (hd : HumanoidData) (st : MergeState) : MergeState :=
  let p := propsToApply st in
  let inc := incPriorityList st in
  let ps := Props hd in
  let rotates :=
    match pAutoRotate ps with
    | Some b => if gt (Priority hd) (incAutoRotate inc) then Some b else None
    | None => None
    end in
  mkMerge
    (mkProps (addNumber (pWalkSpeed ps) (WalkSpeed p))
             (addNumber (pJumpPower ps) (JumpPower p))
             (default (AutoRotate p) rotates)
             (addNumber (pJumpHeight ps) (JumpHeight p)))
    (mkInc (incWalkSpeed inc) (incJumpPower inc)
           (match rotates with
            | Some _ => Priority hd
            | None => incAutoRotate inc
            end)
           (incJumpHeight inc))
    (previousSetMPriority st).

(** The Set branch (lines 113-116): every property present in the override
    record replaces the running value. *)
Definition applySet (hd : HumanoidData) (st : MergeState) : MergeState :=
  let p := propsToApply st in
  let ps := Props hd in
  mkMerge
    (mkProps (default (WalkSpeed p) (pWalkSpeed ps))
             (default (JumpPower p) (pJumpPower ps))
             (default (AutoRotate p) (pAutoRotate ps))
             (default (JumpHeight p) (pJumpHeight ps)))
    (incPriorityList st)
    (Some (Priority hd)).

(** The guard of the Set branch (line 112). *)
Definition setApplies (hd : HumanoidData) (st : MergeState) : bool :=
  match previousSetMPriority st with
  | None => true
  | Some prev => negb (truthy prev) || gt (Priority hd) prev
  end.

(** One iteration of [statuses.forEach] (lines 97-118); the argument is what
    [StatusEffect.GetHumanoidData()] returned for the status. *)
Definition mergeStep (st : MergeState) (humanoidData : option HumanoidData)
  : MergeState :=
  match humanoidData with
  | None => st
  | Some hd =>
      match mode hd with
      | Increment =>
          if notPrevious (previousSetMPriority st) then applyIncrement hd st
          else st
      | SetMode =>
          if setApplies hd st then applySet hd st else st
      end
  end.

Definition mergeLoop (defaults : AffectableHumanoidProps)
    (statuses : list (option HumanoidData)) : MergeState :=
  foldl mergeStep (mergeInit defaults) statuses.

(** ** Objects *)

(** A connection to the [HumanoidDataChanged] signal of an effect: the
    handler recomputes the properties of [conn_owner]. *)
Record Connection : Type := mkConnection {
  conn_owner : cref;
  Connected : bool;
}.

(** The closure that [_addStatus] registers with [Status.Destroyed.Once]
    (lines 149-154): it captures [this] and [conn]. *)
Record OnceHandler : Type := mkOnce {
  once_owner : cref;
  once_conn : nat;
}.

(** Modelled from the spec: the status effect class, whose file
    (statusEffect.ts) is not part of the sources.  Section 3 gives it a string
    id, an optional humanoid data record, a change notification and a one-time
    notification on destruction; [_packData] of the effect yields at least its
    class name, which the reconciliation reads back. *)
Record StatusEffect : Type := mkStatus {
  se_id : string;
  se_className : string;
  se_humanoidData : option HumanoidData;
  se_destroyed : bool;
  HumanoidDataChanged : list Connection;
  Destroyed : list OnceHandler;
}.

Record StatusData : Type := mkStatusData {
  className : string;
}.

(** [CharacterData]: the packed effects and a REFERENCE to a property table. *)
Record CharacterData : Type := mkCharacterData {
  cd_statusEffects : list (string * StatusData);
  cd_defaultProps : loc;
}.

(** What the janitor of a character holds. *)
Inductive JanitorItem : Type :=
| JDamageTaken
| JDestroyed
| JConnection (Status : eref) (conn : nat)
| JDisconnect.

Record Character : Type := mkCharacter {
  Instance_ : Instance;
  Humanoid : href;
  statusEffects : list (string * eref);
  defaultsProps : loc;
  janitor : list JanitorItem;
}.

(** Signals fired by the file that have no listener inside it. *)
Inductive Signal : Type :=
| CharacterCreated (c : cref)
| CharacterDestroyed (c : cref)
| DestroyedSignal (c : cref)
| StatusEffectAdded (c : cref) (Status : eref)
| StatusEffectRemoved (c : cref) (Status : eref)
| StatusDestroyed (Status : eref).

(** Calls to [rootProducer]. *)
Inductive ProducerAction : Type :=
| setCharacterData (i : Instance) (d : CharacterData)
| patchCharacterData (i : Instance) (defaultProps : loc)
| deleteCharacterData (i : Instance).

(** A [Map<string, V>] keeps its entries in insertion order; [set] on a key
    that is present keeps the position of the entry.  The compiled program
    walks a Luau table, whose order of traversal is not fixed: the list stands
    for one traversal, and the content of a packed snapshot is stated on its
    lookups and its size, not on the order of its entries. *)
Section OrderedMap.
Context {V : Type}.

Fixpoint omap_get (k : string) (m : list (string * V)) : option V :=
  match m with
  | [] => None
  | (k', v) :: m' => if String.eqb k k' then Some v else omap_get k m'
  end.

Definition omap_has (k : string) (m : list (string * V)) : bool :=
  match omap_get k m with Some _ => true | None => false end.

Fixpoint omap_set (k : string) (v : V) (m : list (string * V))
  : list (string * V) :=
  match m with
  | [] => [(k, v)]
  | (k', v') :: m' =>
      if String.eqb k k' then (k, v) :: m' else (k', v') :: omap_set k v m'
  end.

Fixpoint omap_delete (k : string) (m : list (string * V))
  : list (string * V) :=
  match m with
  | [] => []
  | (k', v') :: m' =>
      if String.eqb k k' then omap_delete k m' else (k', v') :: omap_delete k m'
  end.
End OrderedMap.

(** ** The state of one process *)

Record World : Type := mkWorld {
  tables : list AffectableHumanoidProps;       (* property tables *)
  charMaps : list (gmap Instance cref);        (* Map<Instance, Character> tables *)
  chars : list Character;
  effects : list StatusEffect;
  humanoids : list AffectableHumanoidProps;    (* the four properties of each Humanoid *)
  signals : list Signal;
  producer : list ProducerAction;
}.

(** [Character.currentCharMap] is a static readonly field: the same table for
    the life of the process. *)
Definition currentCharMap : mref := 0%nat.

(** The initializer of [defaultsProps] (lines 32-37). *)
Definition initialDefaults : AffectableHumanoidProps :=
  mkProps 16 100 true (36 # 5).

Definition emptyWorld : World :=
  mkWorld [] [∅] [] [] [] [] [].

Global Instance AffectableHumanoidProps_inhabited : Inhabited AffectableHumanoidProps :=
  populate initialDefaults.
Global Instance Character_inhabited : Inhabited Character :=
  populate (mkCharacter 1%positive 0%nat [] 0%nat []).
Global Instance StatusEffect_inhabited : Inhabited StatusEffect :=
  populate (mkStatus EmptyString EmptyString None false [] []).

Definition set_tables (f : list AffectableHumanoidProps → list AffectableHumanoidProps)
    (w : World) : World :=
  mkWorld (f (tables w)) (charMaps w) (chars w) (effects w) (humanoids w)
          (signals w) (producer w).
Definition set_charMaps (f : list (gmap Instance cref) → list (gmap Instance cref))
    (w : World) : World :=
  mkWorld (tables w) (f (charMaps w)) (chars w) (effects w) (humanoids w)
          (signals w) (producer w).
Definition set_chars (f : list Character → list Character) (w : World) : World :=
  mkWorld (tables w) (charMaps w) (f (chars w)) (effects w) (humanoids w)
          (signals w) (producer w).
Definition set_effects (f : list StatusEffect → list StatusEffect) (w : World) : World :=
  mkWorld (tables w) (charMaps w) (chars w) (f (effects w)) (humanoids w)
          (signals w) (producer w).
Definition set_humanoids (f : list AffectableHumanoidProps → list AffectableHumanoidProps)
    (w : World) : World :=
  mkWorld (tables w) (charMaps w) (chars w) (effects w) (f (humanoids w))
          (signals w) (producer w).
Definition set_signals (f : list Signal → list Signal) (w : World) : World :=
  mkWorld (tables w) (charMaps w) (chars w) (effects w) (humanoids w)
          (f (signals w)) (producer w).
Definition set_producer (f : list ProducerAction → list ProducerAction) (w : World) : World :=
  mkWorld (tables w) (charMaps w) (chars w) (effects w) (humanoids w)
          (signals w) (f (producer w)).

Definition set_HumanoidDataChanged (f : list Connection → list Connection)
    (s : StatusEffect) : StatusEffect :=
  mkStatus (se_id s) (se_className s) (se_humanoidData s) (se_destroyed s)
           (f (HumanoidDataChanged s)) (Destroyed s).
Definition set_Destroyed (f : list OnceHandler → list OnceHandler)
    (s : StatusEffect) : StatusEffect :=
  mkStatus (se_id s) (se_className s) (se_humanoidData s) (se_destroyed s)
           (HumanoidDataChanged s) (f (Destroyed s)).
Definition set_se_destroyed (b : bool) (s : StatusEffect) : StatusEffect :=
  mkStatus (se_id s) (se_className s) (se_humanoidData s) b
           (HumanoidDataChanged s) (Destroyed s).

Definition set_statusEffects (f : list (string * eref) → list (string * eref))
    (ch : Character) : Character :=
  mkCharacter (Instance_ ch) (Humanoid ch) (f (statusEffects ch))
              (defaultsProps ch) (janitor ch).
Definition set_defaultsProps (l : loc) (ch : Character) : Character :=
  mkCharacter (Instance_ ch) (Humanoid ch) (statusEffects ch) l (janitor ch).
Definition set_janitor (f : list JanitorItem → list JanitorItem)
    (ch : Character) : Character :=
  mkCharacter (Instance_ ch) (Humanoid ch) (statusEffects ch)
              (defaultsProps ch) (f (janitor ch)).

(** ** Effects: a state monad with errors

    An error raised by [error] unwinds the call stack and keeps every write
    made before it, so a computation returns the state in both cases. *)

Inductive Res (A : Type) : Type :=
| Ok (a : A)
| Raise (msg : string).
Arguments Ok {A} a.
Arguments Raise {A} msg.

Definition Eff (A : Type) : Type := World → World * Res A.

Global Instance Eff_ret : MRet Eff := λ A a w, (w, Ok a).
Global Instance Eff_bind : MBind Eff := λ A B f m w,
  match m w with
  | (w', Ok a) => f a w'
  | (w', Raise msg) => (w', Raise msg)
  end.

Definition get : Eff World := λ w, (w, Ok w).
Definition modify (f : World → World) : Eff unit := λ w, (f w, Ok tt).

(** [array.forEach(body)] over a list that the body does not change. *)
Fixpoint forEach {A : Type} (body : A → Eff unit) (l : list A) : Eff unit :=
  match l with
  | [] => mret tt
  | x :: l' => body x ;; forEach body l'
  end.

Definition when (b : bool) (m : Eff unit) : Eff unit :=
  if b then m else mret tt.

(** ** The environment of the process

    What the engine and the files that are not part of the sources answer
    during one operation. *)

(** Modelled from the spec: the construction capability that the Effect
    Registry holds for a class name (section 6: a callable that takes the
    owning character and an id-assignment directive and returns a new effect
    instance).  The class decides the humanoid data of a new instance and
    whether its constructor attaches the instance to the character through
    [_addStatus]; statusEffect.ts is not part of the sources, so both are
    left open. *)
Record StatusCtor : Type := mkCtor {
  ctor_humanoidData : option HumanoidData;
  ctor_attaches : bool;
}.

Record Env : Type := mkEnv {
  IsClient : bool;                                  (* RunService.IsClient() *)
  IsServer : bool;                                  (* RunService.IsServer() *)
  getActiveHandler : bool;                          (* is there an active handler *)
  GetRegisteredStatusEffectConstructor : string → option StatusCtor;
  FindFirstChildOfClass_Humanoid : Instance → option href;
}.

(** Modelled from the spec: [logError] of utility.ts, which is not part of the
    sources.  Section 7 makes every logged precondition violation fatal:
    the call raises and does not return. *)
Definition logError {A : Type} (msg : string) : Eff A := λ w, (w, Raise msg).

(** The builtin [error]. *)
Definition error {A : Type} (msg : string) : Eff A := λ w, (w, Raise msg).

(** *** Heap access

    A reference held by the program always points into its heap; the total
    lookup [!!!] never reaches its default from a world that the operations
    built. *)

Definition getChar (c : cref) : Eff Character := λ w, (w, Ok (chars w !!! c)).
Definition modifyChar (c : cref) (f : Character → Character) : Eff unit :=
  modify (λ w, set_chars (<[c := f (chars w !!! c)]>) w).

Definition getStatus (s : eref) : Eff StatusEffect := λ w, (w, Ok (effects w !!! s)).
Definition modifyStatus (s : eref) (f : StatusEffect → StatusEffect) : Eff unit :=
  modify (λ w, set_effects (<[s := f (effects w !!! s)]>) w).

Definition readTable (l : loc) : Eff AffectableHumanoidProps :=
  λ w, (w, Ok (tables w !!! l)).

(** [table.clone] of a property table: a fresh table with the same fields. *)
Definition table_clone (l : loc) : Eff loc :=
  λ w, (set_tables (λ ts, ts ++ [ts !!! l]) w, Ok (length (tables w))).

(** A table literal. *)
Definition newTable (p : AffectableHumanoidProps) : Eff loc :=
  λ w, (set_tables (λ ts, ts ++ [p]) w, Ok (length (tables w))).

(** [table.clone] of a map of characters. *)
Definition map_clone (m : mref) : Eff mref :=
  λ w, (set_charMaps (λ ms, ms ++ [ms !!! m]) w, Ok (length (charMaps w))).

Definition fire (s : Signal) : Eff unit := modify (set_signals (λ l, l ++ [s])).
Definition dispatch (a : ProducerAction) : Eff unit :=
  modify (set_producer (λ l, l ++ [a])).

(** *** The interface of a status effect *)

Definition GetId (Status : eref) : Eff string :=
  s ← getStatus Status; mret (se_id s).

Definition GetHumanoidData (Status : eref) : Eff (option HumanoidData) :=
  s ← getStatus Status; mret (se_humanoidData s).

Definition Status_packData (Status : eref) : Eff StatusData :=
  s ← getStatus Status; mret (mkStatusData (se_className s)).

(** [Status.HumanoidDataChanged.Connect(handler)]. *)
Definition HumanoidDataChanged_Connect (Status : eref) (owner : cref) : Eff nat :=
  s ← getStatus Status;
  modifyStatus Status
    (set_HumanoidDataChanged (λ conns, conns ++ [mkConnection owner true]));;
  mret (length (HumanoidDataChanged s)).

(** [conn.Disconnect()]. *)
Definition Disconnect (Status : eref) (conn : nat) : Eff unit :=
  modifyStatus Status
    (set_HumanoidDataChanged (alter (λ cn, mkConnection (conn_owner cn) false) conn)).

(** [Status.Destroyed.Once(handler)]. *)
Definition Destroyed_Once (Status : eref) (h : OnceHandler) : Eff unit :=
  modifyStatus Status (set_Destroyed (λ hs, hs ++ [h])).

Definition isNil {A : Type} (o : option A) : bool :=
  match o with Some _ => false | None => true end.

Section Process.
Variable env : Env.

(** *** [updateHumanoidProps] (lines 83-123) *)

(** Line 85: [Status.GetHumanoidData() ?? statuses.push(Status)].  The right
    operand of [??] runs when the left one is [undefined]: a status is
    pushed when it has NO humanoid data. *)
Definition collectStatuses (this : Character) : Eff (list eref) :=
  w ← get;
  mret (List.filter (λ Status, isNil (se_humanoidData (effects w !!! Status)))
                    (map snd (statusEffects this))).

Fixpoint readHumanoidData (statuses : list eref) : Eff (list (option HumanoidData)) :=
  match statuses with
  | [] => mret []
  | Status :: rest =>
      hd ← GetHumanoidData Status;
      hds ← readHumanoidData rest;
      mret (hd :: hds)
  end.

(** Lines 120-122: the four entries of [propsToApply] are written to the
    humanoid. *)
Definition writeHumanoid (h : href) (p : AffectableHumanoidProps) : Eff unit :=
  modify (set_humanoids (<[h := p]>)).

Definition updateHumanoidProps (c : cref) : Eff unit :=
  this ← getChar c;
  statuses ← collectStatuses this;
  match statuses with
  | [] => mret tt                                         (* line 87 *)
  | _ :: _ =>
      defaults ← readTable (defaultsProps this);          (* line 88 *)
      hds ← readHumanoidData statuses;
      let final := mergeLoop defaults hds in              (* lines 96-118 *)
      writeHumanoid (Humanoid this) (propsToApply final)  (* lines 120-122 *)
  end.

(** *** [_addStatus] (lines 140-155) *)

Definition _addStatus (c : cref) (Status : eref) : Eff unit :=
  id ← GetId Status;
  modifyChar c (set_statusEffects (omap_set id Status));;
  fire (StatusEffectAdded c Status);;
  updateHumanoidProps c;;
  conn ← HumanoidDataChanged_Connect Status c;
  modifyChar c (set_janitor (λ j, j ++ [JConnection Status conn]));;
  Destroyed_Once Status (mkOnce c conn).

(** The handler of lines 149-154. *)
Definition onStatusDestroyed (Status : eref) (h : OnceHandler) : Eff unit :=
  Disconnect Status (once_conn h);;
  id ← GetId Status;
  modifyChar (once_owner h) (set_statusEffects (omap_delete id));;
  fire (StatusEffectRemoved (once_owner h) Status);;
  updateHumanoidProps (once_owner h).

(** Modelled from the spec: [Status.Destroy()] of statusEffect.ts, which is
    not part of the sources.  Sections 3 and 9 make destruction raise a
    one-time notification, delivered synchronously: the handlers registered
    with [Destroyed.Once] run once, in the order of their registration, and
    a second [Destroy] finds none. *)
Definition StatusEffect_Destroy (Status : eref) : Eff unit :=
  s ← getStatus Status;
  modifyStatus Status (λ s, set_se_destroyed true (set_Destroyed (λ _, []) s));;
  fire (StatusDestroyed Status);;
  forEach (onStatusDestroyed Status) (Destroyed s).

(** *** [_packData] (lines 160-168) *)

Fixpoint packStatusEffects (m : list (string * eref))
    (packedStatusEffect : list (string * StatusData))
  : Eff (list (string * StatusData)) :=
  match m with
  | [] => mret packedStatusEffect
  | (Id, Status) :: rest =>
      d ← Status_packData Status;
      packStatusEffects rest (omap_set Id d packedStatusEffect)
  end.

Definition _packData (c : cref) : Eff CharacterData :=
  this ← getChar c;
  packedStatusEffect ← packStatusEffects (statusEffects this) [];
  mret (mkCharacterData packedStatusEffect (defaultsProps this)).

(** *** [SetDefaultProps], [GetDefaultsProps] and the accessors of the
    global map (lines 212-231) *)

Definition SetDefaultProps (c : cref) (Props : loc) : Eff unit :=
  this ← getChar c;
  modifyChar c (set_defaultsProps Props);;
  when (IsServer env) (dispatch (patchCharacterData (Instance_ this) Props)).

Definition GetDefaultsProps (c : cref) : Eff loc :=
  this ← getChar c;
  table_clone (defaultsProps this).

Definition GetCharacterMap : Eff mref := map_clone currentCharMap.

Definition GetCharacterFromInstance (i : Instance) : Eff (option cref) :=
  λ w, (w, Ok ((charMaps w !!! currentCharMap) !! i)).

Definition currentCharMap_set (i : Instance) (c : cref) : Eff unit :=
  modify (set_charMaps (λ ms, <[currentCharMap := <[i := c]> (ms !!! currentCharMap)]> ms)).

Definition currentCharMap_delete (i : Instance) : Eff unit :=
  modify (set_charMaps (λ ms, <[currentCharMap := delete i (ms !!! currentCharMap)]> ms)).

(** *** The reconciliation of the observing side (lines 170-210) *)

(** Modelled from the spec: [new constructor(this, {flag, data: Id})], the
    constructor of a registered effect class (statusEffect.ts is not part of
    the sources).  Section 4.2 has the instance carry exactly the id of the
    directive. *)
Definition new_StatusEffect (constructor : StatusCtor) (cls : string)
    (c : cref) (Id : string) : Eff eref :=
  w ← get;
  let newStatus := length (effects w) in
  modify (set_effects (λ es,
    es ++ [mkStatus Id cls (ctor_humanoidData constructor) false [] []]));;
  when (ctor_attaches constructor) (_addStatus c newStatus);;
  mret newStatus.

(** Lines 174-190. *)
Definition processStatusAddition (c : cref) (Data : StatusData) (Id : string)
  : Eff unit :=
  match GetRegisteredStatusEffectConstructor env (className Data) with
  | None => logError "Replication Error: Could not find a registered StatusEffect"
  | Some constructor =>
      newStatus ← new_StatusEffect constructor (className Data) c Id;
      modifyChar c (set_statusEffects (omap_set Id newStatus))
  end.

(** Lines 195-199: the snapshot is not changed by the body. *)
Definition addMissing (c : cref) (entry : string * StatusData) : Eff unit :=
  this ← getChar c;
  if isNil (omap_get entry.1 (statusEffects this))
  then processStatusAddition c entry.2 entry.1
  else mret tt.

(** Lines 201-205: [this.statusEffects.forEach] walks the live map, and the
    body can delete entries of it (through the destruction handlers): an
    entry deleted before its turn is not visited. *)
Definition destroyStale (c : cref) (snapshot : list (string * StatusData))
    (entry : string * eref) : Eff unit :=
  this ← getChar c;
  match omap_get entry.1 (statusEffects this) with
  | Some Status =>
      if Nat.eqb Status entry.2 && negb (omap_has entry.1 snapshot)
      then StatusEffect_Destroy Status
      else mret tt
  | None => mret tt
  end.

(** The callback of [rootProducer.subscribe] (lines 192-208). *)
Definition onCharacterData (c : cref) (data : option CharacterData) : Eff unit :=
  match data with
  | None => mret tt
  | Some CharacterData =>
      forEach (addMissing c) (cd_statusEffects CharacterData);;
      this ← getChar c;
      forEach (destroyStale c (cd_statusEffects CharacterData)) (statusEffects this);;
      this ← getChar c;
      when (negb (Nat.eqb (cd_defaultProps CharacterData) (defaultsProps this)))
           (SetDefaultProps c (cd_defaultProps CharacterData))
  end.

Definition setupReplication_Client (c : cref) : Eff unit :=
  if negb (IsClient env) then mret tt
  else if negb (getActiveHandler env) then mret tt
  else modifyChar c (set_janitor (λ j, j ++ [JDisconnect])).

(** *** The constructor (lines 44-81) *)

Definition new_Character (Instance : Instance) (canCreateClient : bool) : Eff cref :=
  defaults ← newTable initialDefaults;                       (* lines 32-37 *)
  when (IsClient env && negb canCreateClient)
       (logError "Attempted to manually create a character on client.");;
  existing ← GetCharacterFromInstance Instance;
  when (negb (isNil existing))
       (logError "Attempted to create 2 different characters over a same instance.");;
  when (negb (getActiveHandler env))
       (logError "Attempted to instantiate a character before server has started.");;
  match FindFirstChildOfClass_Humanoid env Instance with
  | None =>
      logError (A := unit)
        "Attempted to instantiate a character over an instance without humanoid.";;
      error EmptyString
  | Some humanoid =>
      w ← get;
      let this := length (chars w) in
      modify (set_chars (λ cs, cs ++ [mkCharacter Instance humanoid [] defaults []]));;
      currentCharMap_set Instance this;;
      fire (CharacterCreated this);;
      setupReplication_Client this;;
      modifyChar this (set_janitor (λ j, j ++ [JDamageTaken]));;
      modifyChar this (set_janitor (λ j, j ++ [JDestroyed]));;
      updateHumanoidProps this;;
      when (IsServer env)
           (d ← _packData this; dispatch (setCharacterData Instance d));;
      mret this
  end.

(** *** [Destroy] (lines 125-135) *)

(** [janitor.Cleanup()] of the janitor library: a connection is
    disconnected; the signals and the unsubscribe function hold no state of
    this model. *)
Definition cleanup (item : JanitorItem) : Eff unit :=
  match item with
  | JConnection Status conn => Disconnect Status conn
  | JDamageTaken | JDestroyed | JDisconnect => mret tt
  end.

Definition Destroy (c : cref) : Eff unit :=
  this ← getChar c;
  forEach cleanup (janitor this);;
  modifyChar c (set_janitor (λ _, []));;
  currentCharMap_delete (Instance_ this);;
  when (IsServer env) (dispatch (deleteCharacterData (Instance_ this)));;
  fire (CharacterDestroyed c);;
  fire (DestroyedSignal c).
End Process.

(** ** Mutations by a holder of a reference

    What the caller of an accessor can do to the table it received. *)

Inductive PropsMutation : Type :=
| WriteWalkSpeed (v : number)
| WriteJumpPower (v : number)
| WriteAutoRotate (v : bool)
| WriteJumpHeight (v : number).

Definition mutateProps (m : PropsMutation) (p : AffectableHumanoidProps)
  : AffectableHumanoidProps :=
  match m with
  | WriteWalkSpeed v => mkProps v (JumpPower p) (AutoRotate p) (JumpHeight p)
  | WriteJumpPower v => mkProps (WalkSpeed p) v (AutoRotate p) (JumpHeight p)
  | WriteAutoRotate v => mkProps (WalkSpeed p) (JumpPower p) v (JumpHeight p)
  | WriteJumpHeight v => mkProps (WalkSpeed p) (JumpPower p) (AutoRotate p) v
  end.

(** [t[Property] = v] on the table at [l]. *)
Definition writeTable (l : loc) (m : PropsMutation) : Eff unit :=
  modify (λ w, set_tables (<[l := mutateProps m (tables w !!! l)]>) w).

Inductive MapMutation : Type :=
| MapSet (k : Instance) (c : cref)
| MapDelete (k : Instance)
| MapClear.

Definition mutateMap (m : MapMutation) (t : gmap Instance cref) : gmap Instance cref :=
  match m with
  | MapSet k c => <[k := c]> t
  | MapDelete k => delete k t
  | MapClear => ∅
  end.

Definition writeMap (r : mref) (m : MapMutation) : Eff unit :=
  modify (λ w, set_charMaps (<[r := mutateMap m (charMaps w !!! r)]>) w).

(** A sequence of writes by a caller holding a property table and a map. *)
Inductive Mutation : Type :=
| OnProps (m : PropsMutation)
| OnMap (m : MapMutation).

Definition mutate (l : loc) (r : mref) (m : Mutation) : Eff unit :=
  match m with
  | OnProps pm => writeTable l pm
  | OnMap mm => writeMap r mm
  end.

(** ** Vocabulary of the statements *)

(** The effect map of a character. *)
Definition smap (w : World) (c : cref) : list (string * eref) :=
  statusEffects (chars w !!! c).

(** The baseline properties of a character, read through its reference. *)
Definition baseline (w : World) (c : cref) : AffectableHumanoidProps :=
  tables w !!! defaultsProps (chars w !!! c).

(** The live properties of the humanoid of a character. *)
Definition live (w : World) (c : cref) : AffectableHumanoidProps :=
  humanoids w !!! Humanoid (chars w !!! c).

(** The statuses that line 85 collects, and the humanoids after the pass. *)
Definition collected (w : World) (c : cref) : list eref :=
  List.filter (λ Status, isNil (se_humanoidData (effects w !!! Status)))
              (map snd (smap w c)).

Definition recompute (c : cref) (w : World) : list AffectableHumanoidProps :=
  match collected w c with
  | [] => humanoids w
  | _ :: _ =>
      <[Humanoid (chars w !!! c) :=
          propsToApply (mergeLoop (baseline w c)
            (map (λ Status, se_humanoidData (effects w !!! Status)) (collected w c)))]>
        (humanoids w)
  end.

(** A computation keeps a relation between the state before and after it,
    whether it returns or raises. *)
Definition keeps {A : Type} (R : World → World → Prop) (m : Eff A) : Prop :=
  ∀ w, R w (m w).1.

(** A computation returns. *)
Definition succeeds {A : Type} (m : Eff A) : Prop :=
  ∀ w, ∃ a, (m w).2 = Ok a.

(** What no operation on effects changes in the characters and tables. *)
Record CharFrame (w w' : World) : Prop := mkCharFrame {
  fr_tables : tables w' = tables w;
  fr_charMaps : charMaps w' = charMaps w;
  fr_producer : producer w' = producer w;
  fr_chars : length (chars w') = length (chars w);
  fr_Instance : ∀ c, Instance_ (chars w' !!! c) = Instance_ (chars w !!! c);
  fr_Humanoid : ∀ c, Humanoid (chars w' !!! c) = Humanoid (chars w !!! c);
  fr_defaultsProps : ∀ c, defaultsProps (chars w' !!! c) = defaultsProps (chars w !!! c);
}.

(** What attachment and destruction keep of the effects: no effect is
    allocated, identities and data stay, and a destroyed effect stays so. *)
Record EffectFrame (w w' : World) : Prop := mkEffectFrame {
  fr_effects : length (effects w') = length (effects w);
  fr_id : ∀ e, se_id (effects w' !!! e) = se_id (effects w !!! e);
  fr_className : ∀ e, se_className (effects w' !!! e) = se_className (effects w !!! e);
  fr_humanoidData :
    ∀ e, se_humanoidData (effects w' !!! e) = se_humanoidData (effects w !!! e);
  fr_destroyed :
    ∀ e, se_destroyed (effects w !!! e) = true → se_destroyed (effects w' !!! e) = true;
}.

(** The effect maps lose at most the key [id]. *)
Definition only_deletes (id : string) (w w' : World) : Prop :=
  ∀ c k, omap_get k (smap w' c) = omap_get k (smap w c)
         ∨ (k = id ∧ omap_get k (smap w' c) = None).

(** Writes through the references [l] and [m] touch no other table, no other
    map and no character. *)
Definition untouched_except (l : loc) (m : mref) (w w' : World) : Prop :=
  chars w' = chars w
  ∧ length (tables w') = length (tables w)
  ∧ length (charMaps w') = length (charMaps w)
  ∧ (∀ i, i ≠ l → tables w' !!! i = tables w !!! i)
  ∧ (∀ j, j ≠ m → charMaps w' !!! j = charMaps w !!! j).

(** ** Example processes *)

Definition registry0 (name : string) : option StatusCtor :=
  if String.eqb name "Slow" then Some (mkCtor None true) else None.

Definition humanoidOf0 (i : Instance) : option href :=
  if Pos.eqb i 1 then Some 0%nat else None.

Definition serverEnv : Env := mkEnv false true true registry0 humanoidOf0.
Definition clientEnv : Env := mkEnv true false true registry0 humanoidOf0.

Definition setEffect (id : string) (priority speed : number) : StatusEffect :=
  mkStatus id "Speed"
    (Some (mkHumanoidData (mkPartial (Some speed) None None None) SetMode priority))
    false [] [].

Definition incEffect (id : string) (priority speed : number) : StatusEffect :=
  mkStatus id "Speed"
    (Some (mkHumanoidData (mkPartial (Some speed) None None None) Increment priority))
    false [] [].

Definition plainEffect (id : string) : StatusEffect :=
  mkStatus id "Plain" None false [] [].

(** A process whose engine holds one humanoid, with the walk speed [speed],
    and the effect objects [es], none attached yet. *)
Definition engineWorld (speed : number) (es : list StatusEffect) : World :=
  mkWorld [] [∅] [] es [mkProps speed 50 true (36 # 5)] [] [].

(** A character over instance [1] with the effects attached in the order
    [order]. *)
Definition attachAll (order : list eref) : Eff cref :=
  c ← new_Character serverEnv 1%positive false;
  forEach (_addStatus c) order;;
  mret c.

(** A character (reference [0]) over instance [1] and humanoid [0], with
    baseline table [0] and the effects [es] attached under their ids, whose
    humanoid has the walk speed [speed]. *)
Definition characterWorld (speed : number) (es : list StatusEffect) : World :=
  mkWorld [initialDefaults] [{[ 1%positive := 0%nat ]}]
    [mkCharacter 1%positive 0%nat (zip (se_id <$> es) (seq 0 (length es))) 0%nat []]
    es [mkProps speed 50 true (36 # 5)] [] [].

(** One Increment effect, [WalkSpeed +5] at priority 1. *)
Definition boostedWorld : World := characterWorld 16 [incEffect "a" 1 5].

(** One effect without humanoid data; the humanoid walks at 20. *)
Definition quietWorld : World := characterWorld 20 [plainEffect "p"].

(** Set effects A (priority 1, speed 10) and B (priority 5, speed 20). *)
Definition setA : StatusEffect := setEffect "A" 1 10.
Definition setB : StatusEffect := setEffect "B" 5 20.

(** Increment effects A (priority 1, +5) and B (priority 2, +3). *)
Definition incA : StatusEffect := incEffect "A" 1 5.
Definition incB : StatusEffect := incEffect "B" 2 3.

(** A Set effect at priority 3 and an Increment effect at priority 10. *)
Definition set3 : StatusEffect := setEffect "S" 3 10.
Definition inc10 : StatusEffect := incEffect "I" 10 5.

(** A Set effect at priority 0. *)
Definition set0 : StatusEffect := setEffect "Z" 0 10.

(** An observing process: a character built by the replication bridge, and
    the snapshots of the two cycles. *)
Definition observerWorld : World :=
  (new_Character clientEnv 1%positive true (engineWorld 16 [])).1.

Definition snapshotX : CharacterData :=
  mkCharacterData [("x", mkStatusData "Slow")] 0%nat.

Definition snapshotEmpty : CharacterData := mkCharacterData [] 0%nat.

(** A snapshot whose only effect is of a class that the registry lacks. *)
Definition snapshotUnknown : CharacterData :=
  mkCharacterData [("y", mkStatusData "Unknown")] 0%nat.

(** An observer that holds an attached effect ["old"]. *)
Definition staleWorld : World :=
  ((c ← new_Character clientEnv 1%positive true; _addStatus c 0%nat)
     (engineWorld 16 [plainEffect "old"])).1.

(** A character with one attached effect, built by the operations. *)
Definition attachedWorld : World :=
  (attachAll [0%nat] (engineWorld 16 [plainEffect "a"])).1.

(** An observer whose heap holds a second table with the fields of the
    baseline, and a snapshot that refers to it. *)
Definition twinWorld : World := (newTable initialDefaults staleWorld).1.

Definition snapshotTwin : CharacterData :=
  mkCharacterData [("old", mkStatusData "Plain")] 1%nat.

(** A snapshot that refers to the second table and holds one effect of a
    class that the registry lacks. *)
Definition snapshotUnknownTwin : CharacterData :=
  mkCharacterData [("y", mkStatusData "Unknown")] 1%nat.

(** A character with an effect without humanoid data (["p"]) and a Set effect
    (["s"], walk speed 10), both attached, whose baseline was then replaced by
    a table with the walk speed 20: the humanoid still walks at 16. *)
Definition rebasedWorld : World :=
  ((c ← new_Character serverEnv 1%positive false;
    _addStatus c 0%nat;;
    _addStatus c 1%nat;;
    Props ← newTable (mkProps 20 100 true (36 # 5));
    SetDefaultProps serverEnv c Props)
     (engineWorld 16 [plainEffect "p"; setEffect "s" 1 10])).1.

(** Writes of a caller to the copies it received. *)
Definition someWrites : list Mutation :=
  [OnProps (WriteWalkSpeed 99); OnMap (MapDelete 1%positive);
   OnProps (WriteAutoRotate false); OnMap (MapSet 7%positive 3%nat); OnMap MapClear].

(** ** Vocabulary of the further properties *)

(** A computation keeps an invariant of the state, whether it returns or
    raises. *)
Definition preserves {A : Type} (P : World → Prop) (m : Eff A) : Prop :=
  ∀ w, P w → P (m w).1.

(** The effect map of [c] is a map (no id twice) and holds each effect, a
    live object of the heap, under the id of the effect. *)
Definition wf_map (w : World) (c : cref) : Prop :=
  NoDup (smap w c).*1
  ∧ ∀ k e, (k, e) ∈ smap w c →
      se_id (effects w !!! e) = k ∧ (e < length (effects w))%nat.

(** The character [c] exists and its effect map is well formed. *)
Definition wf_char (c : cref) (w : World) : Prop :=
  (c < length (chars w))%nat ∧ wf_map w c.

(** No effect map gains an entry, and the entries that stay keep their
    order. *)
Definition shrinks (w w' : World) : Prop :=
  ∀ c, smap w' c `sublist_of` smap w c.

(** The handlers of the [Destroyed] signals stay as they are. *)
Definition same_handlers (w w' : World) : Prop :=
  ∀ e, Destroyed (effects w' !!! e) = Destroyed (effects w !!! e).

(** The sum of the overrides of one numeric property. *)
Definition total (property : PartialProps → option number)
    (hds : list HumanoidData) : number :=
  foldr (λ hd acc, (default 0 (property (Props hd)) + acc)%Q) 0%Q hds.

(** The overrides that the effects give for one numeric property, in the
    order of the loop. *)
Definition overrides (property : PartialProps → option number)
    (hds : list HumanoidData) : list number :=
  omap (λ hd, property (Props hd)) hds.

(** An integer of magnitude at most 2^53: a number that a double holds
    exactly. *)
Definition safe_integer (n : number) : bool :=
  Qeq_bool (inject_Z (Qfloor n)) n && (Z.abs (Qfloor n) <=? 2 ^ 53)%Z.

(** The additions of line 106 for one property, from the value [cur] of
    [propsToApply] on: every operand and every sum is a safe integer, so that
    the addition of doubles does not round and is the one of the rationals. *)
Fixpoint exact_sums (cur : number) (values : list number) : bool :=
  safe_integer cur &&
  match values with
  | [] => true
  | Value :: rest => safe_integer Value && exact_sums (Value + cur)%Q rest
  end.

(** Two effect objects with the same id, none attached. *)
Definition twinEffects : World :=
  (new_Character serverEnv 1%positive false
     (engineWorld 16 [plainEffect "t"; plainEffect "t"])).1.

(** A server process with one character and one fresh effect. *)
Definition freshWorld : World :=
  (new_Character serverEnv 1%positive false (engineWorld 16 [plainEffect "f"])).1.

(** * Properties *)

(** ** Ordered maps *)

Section OrderedMapFacts.
Context {V : Type}.
Implicit Types (m : list (string * V)) (k : string) (v : V).

Lemma omap_get_set k k' v m :
  omap_get k' (omap_set k v m) = if String.eqb k' k then Some v else omap_get k' m.
Proof.
  induction m as [|[k0 v0] m IH]; cbn.
  - done.
  - destruct (String.eqb k k0) eqn:E; cbn.
    + apply String.eqb_eq in E as ->. by destruct (String.eqb k' k0).
    + destruct (String.eqb k' k0) eqn:E'; [|done].
      apply String.eqb_eq in E' as ->.
      rewrite String.eqb_sym, E. done.
Qed.

Lemma omap_get_delete k k' m :
  omap_get k' (omap_delete k m) = if String.eqb k' k then None else omap_get k' m.
Proof.
  induction m as [|[k0 v0] m IH]; cbn.
  - by destruct (String.eqb k' k).
  - destruct (String.eqb k k0) eqn:E; cbn.
    + apply String.eqb_eq in E as ->. rewrite IH.
      by destruct (String.eqb k' k0).
    + rewrite IH. destruct (String.eqb k' k0) eqn:E'; [|done].
      apply String.eqb_eq in E' as ->.
      by rewrite String.eqb_sym, E.
Qed.

Lemma elem_of_omap_delete k k' v m : (k', v) ∈ omap_delete k m → (k', v) ∈ m.
Proof.
  induction m as [|[k0 v0] m IH]; cbn; [done|].
  destruct (String.eqb k k0).
  - intros H. right. by apply IH.
  - intros [->|H]%elem_of_cons; [by left | right; by apply IH].
Qed.

Lemma omap_get_delete_eq k m : omap_get k (omap_delete k m) = None.
Proof. by rewrite omap_get_delete, String.eqb_refl. Qed.

(** [set] on a key that is absent appends the entry. *)
Lemma omap_set_absent k v m :
  omap_get k m = None → omap_set k v m = m ++ [(k, v)].
Proof.
  induction m as [|[k0 v0] m IH]; cbn; [done|].
  destruct (String.eqb k k0); [done|]. intros H. by rewrite IH.
Qed.

Lemma omap_set_set k v m : omap_set k v (omap_set k v m) = omap_set k v m.
Proof.
  induction m as [|[k0 v0] m IH]; cbn.
  - by rewrite String.eqb_refl.
  - destruct (String.eqb k k0) eqn:E; cbn.
    + by rewrite String.eqb_refl.
    + by rewrite E, IH.
Qed.

Lemma omap_get_None k m : omap_get k m = None ↔ k ∉ m.*1.
Proof.
  induction m as [|[k0 v0] m IH]; cbn.
  - split; [intros _; apply not_elem_of_nil | done].
  - rewrite not_elem_of_cons. destruct (String.eqb k k0) eqn:E.
    + apply String.eqb_eq in E. split; [done | tauto].
    + apply String.eqb_neq in E. tauto.
Qed.

(** In a map (no key twice) every entry is the one [get] finds. *)
Lemma omap_get_elem k v m :
  NoDup m.*1 → (k, v) ∈ m → omap_get k m = Some v.
Proof.
  induction m as [|[k0 v0] m IH]; cbn.
  - intros _ H. by apply elem_of_nil in H.
  - rewrite NoDup_cons. intros [Hk0 Hnd] [H|H]%elem_of_cons.
    + simplify_eq. by rewrite String.eqb_refl.
    + destruct (String.eqb k k0) eqn:E; [|by apply IH].
      apply String.eqb_eq in E as ->. exfalso. apply Hk0.
      apply list_elem_of_fmap. by exists (k0, v).
Qed.

Lemma omap_has_true k m : omap_has k m = true ↔ k ∈ m.*1.
Proof.
  unfold omap_has. destruct (omap_get k m) eqn:E.
  - split; [|done]. intros _. destruct (decide (k ∈ m.*1)) as [|Hn]; [done|].
    apply omap_get_None in Hn. congruence.
  - apply omap_get_None in E. split; [done | tauto].
Qed.
End OrderedMapFacts.

(** ** The monad *)

Lemma bind_Ok {A B : Type} (m : Eff A) (f : A → Eff B) w w' a :
  m w = (w', Ok a) → (m ≫= f) w = f a w'.
Proof. unfold mbind, Eff_bind. by intros ->. Qed.

Lemma bind_Raise {A B : Type} (m : Eff A) (f : A → Eff B) w w' msg :
  m w = (w', Raise msg) → (m ≫= f) w = (w', Raise msg).
Proof. unfold mbind, Eff_bind. by intros ->. Qed.

Section Keeps.
Context (R : World → World → Prop) `{!Reflexive R} `{!Transitive R}.

Lemma keeps_ret {A : Type} (a : A) : keeps R (mret a).
Proof. intros w. apply reflexivity. Qed.

Lemma keeps_raise {A : Type} msg : keeps R (logError (A := A) msg).
Proof. intros w. apply reflexivity. Qed.

Lemma keeps_get : keeps R get.
Proof. intros w. apply reflexivity. Qed.

Lemma keeps_bind {A B : Type} (m : Eff A) (f : A → Eff B) :
  keeps R m → (∀ a, keeps R (f a)) → keeps R (m ≫= f).
Proof.
  intros Hm Hf w. unfold mbind, Eff_bind.
  specialize (Hm w). destruct (m w) as [w' [a|msg]]; cbn in *; [|done].
  etrans; [exact Hm | apply Hf].
Qed.

Lemma keeps_when (b : bool) (m : Eff unit) : keeps R m → keeps R (when b m).
Proof. destruct b; [done | intros _; apply keeps_ret]. Qed.

Lemma keeps_forEach {A : Type} (body : A → Eff unit) (l : list A) :
  (∀ x, keeps R (body x)) → keeps R (forEach body l).
Proof.
  intros Hb. induction l as [|x l IH]; cbn [forEach].
  - apply keeps_ret.
  - apply keeps_bind; [apply Hb | intros _; apply IH].
Qed.

Lemma keeps_modify (f : World → World) : (∀ w, R w (f w)) → keeps R (modify f).
Proof. intros H w. apply H. Qed.
End Keeps.

Lemma succeeds_ret {A : Type} (a : A) : succeeds (mret a).
Proof. intros w. by exists a. Qed.

Lemma succeeds_bind {A B : Type} (m : Eff A) (f : A → Eff B) :
  succeeds m → (∀ a, succeeds (f a)) → succeeds (m ≫= f).
Proof.
  intros Hm Hf w. unfold mbind, Eff_bind.
  destruct (Hm w) as [a Ha]. destruct (m w) as [w' r]; cbn in *; subst r.
  apply Hf.
Qed.

Lemma succeeds_modify (f : World → World) : succeeds (modify f).
Proof. intros w. by exists tt. Qed.

Lemma succeeds_when (b : bool) (m : Eff unit) : succeeds m → succeeds (when b m).
Proof. destruct b; [done | intros _; apply succeeds_ret]. Qed.

Lemma succeeds_forEach {A : Type} (body : A → Eff unit) (l : list A) :
  (∀ x, succeeds (body x)) → succeeds (forEach body l).
Proof.
  intros Hb. induction l as [|x l IH]; cbn [forEach].
  - apply succeeds_ret.
  - apply succeeds_bind; [apply Hb | intros _; apply IH].
Qed.

(** ** Frames *)

Global Instance CharFrame_refl : Reflexive CharFrame.
Proof. intros w. by split. Qed.

Global Instance CharFrame_trans : Transitive CharFrame.
Proof.
  intros w1 w2 w3 [] []. split; intros; etrans; eauto.
Qed.

Global Instance EffectFrame_refl : Reflexive EffectFrame.
Proof. intros w. by split. Qed.

Global Instance EffectFrame_trans : Transitive EffectFrame.
Proof.
  intros w1 w2 w3 [] []. split; intros; first [by etrans; eauto | eauto].
Qed.

Global Instance only_deletes_refl id : Reflexive (only_deletes id).
Proof. intros w c k. by left. Qed.

Global Instance only_deletes_trans id : Transitive (only_deletes id).
Proof.
  intros w1 w2 w3 H12 H23 c k.
  destruct (H23 c k) as [->|[-> H]]; [apply H12 | by right].
Qed.

(** Reading back an entry of a heap that was rewritten in place. *)
Lemma lookup_total_modify {A B : Type} `{!Inhabited A} (g : A → B) (f : A → A)
    (l : list A) (i j : nat) :
  (∀ x, g (f x) = g x) → g (<[i := f (l !!! i)]> l !!! j) = g (l !!! j).
Proof.
  intros Hg. destruct (decide (i = j)) as [->|Hne].
  - destruct (decide (j < length l)%nat) as [Hlt|Hge].
    + by rewrite list_lookup_total_insert_eq.
    + by rewrite list_insert_ge by lia.
  - by rewrite list_lookup_total_insert_ne.
Qed.

Lemma keeps_CharFrame_modifyChar c f :
  (∀ ch, Instance_ (f ch) = Instance_ ch) →
  (∀ ch, Humanoid (f ch) = Humanoid ch) →
  (∀ ch, defaultsProps (f ch) = defaultsProps ch) →
  keeps CharFrame (modifyChar c f).
Proof.
  intros H1 H2 H3 w. unfold modifyChar, modify. cbn.
  split; cbn; try done.
  - by rewrite length_insert.
  - intros c'. by apply (lookup_total_modify Instance_).
  - intros c'. by apply (lookup_total_modify Humanoid).
  - intros c'. by apply (lookup_total_modify defaultsProps).
Qed.

Lemma keeps_CharFrame_modifyStatus s f : keeps CharFrame (modifyStatus s f).
Proof. intros w. by split. Qed.

Lemma keeps_EffectFrame_modifyChar c f : keeps EffectFrame (modifyChar c f).
Proof. intros w. by split. Qed.

Lemma keeps_EffectFrame_modifyStatus s f :
  (∀ x, se_id (f x) = se_id x) →
  (∀ x, se_className (f x) = se_className x) →
  (∀ x, se_humanoidData (f x) = se_humanoidData x) →
  (∀ x, se_destroyed x = true → se_destroyed (f x) = true) →
  keeps EffectFrame (modifyStatus s f).
Proof.
  intros H1 H2 H3 H4 w. unfold modifyStatus, modify. cbn.
  split; cbn.
  - by rewrite length_insert.
  - intros e. by apply (lookup_total_modify se_id).
  - intros e. by apply (lookup_total_modify se_className).
  - intros e. by apply (lookup_total_modify se_humanoidData).
  - intros e He. destruct (decide (s = e)) as [->|Hne].
    + destruct (decide (e < length (effects w))%nat) as [Hlt|Hge].
      * rewrite list_lookup_total_insert_eq by done. by apply H4.
      * by rewrite list_insert_ge by lia.
    + by rewrite list_lookup_total_insert_ne.
Qed.

(** ** The recomputation pass *)

Lemma readHumanoidData_run statuses w :
  readHumanoidData statuses w
  = (w, Ok (map (λ Status, se_humanoidData (effects w !!! Status)) statuses)).
Proof.
  induction statuses as [|s rest IH]; [done|].
  cbn [readHumanoidData].
  unfold GetHumanoidData, getStatus, mbind, Eff_bind, mret, Eff_ret.
  by rewrite IH.
Qed.

(** The pass returns, and writes nothing but the humanoid of the character. *)
Lemma updateHumanoidProps_run c w :
  updateHumanoidProps c w = (set_humanoids (λ _, recompute c w) w, Ok tt).
Proof.
  unfold updateHumanoidProps, recompute, collected, collectStatuses, writeHumanoid,
    baseline, smap.
  unfold mbind, Eff_bind, getChar, get, mret, Eff_ret, readTable, modify. cbn.
  destruct (List.filter _ _) as [|s l] eqn:E.
  - by destruct w.
  - by rewrite readHumanoidData_run.
Qed.

Lemma succeeds_updateHumanoidProps c : succeeds (updateHumanoidProps c).
Proof. intros w. rewrite updateHumanoidProps_run. by exists tt. Qed.

Lemma keeps_CharFrame_updateHumanoidProps c : keeps CharFrame (updateHumanoidProps c).
Proof. intros w. rewrite updateHumanoidProps_run. by split. Qed.

Lemma keeps_EffectFrame_updateHumanoidProps c : keeps EffectFrame (updateHumanoidProps c).
Proof. intros w. rewrite updateHumanoidProps_run. by split. Qed.

Lemma updateHumanoidProps_chars c w : chars (updateHumanoidProps c w).1 = chars w.
Proof. by rewrite updateHumanoidProps_run. Qed.

(** The loop skips a status that has no humanoid data (line 99). *)
Lemma mergeLoop_skips st hds :
  Forall (λ hd, hd = None) hds → foldl mergeStep st hds = st.
Proof.
  induction 1 as [|hd hds -> _ IH]; [done | exact IH].
Qed.

Lemma collected_no_data w c :
  Forall (λ hd, hd = None)
    (map (λ Status, se_humanoidData (effects w !!! Status)) (collected w c)).
Proof.
  apply Forall_forall. intros hd [s [-> Hs]]%list_elem_of_fmap.
  apply list_elem_of_In, filter_In in Hs as [_ Hs].
  by destruct (se_humanoidData _).
Qed.

(** What the pass does, for every world and character: the statuses it collects
    are those WITHOUT humanoid data, the loop skips each of them, and the
    humanoid receives the baseline as it is.  With no such status the pass
    returns at line 87. *)
Lemma recompute_baseline c w :
  recompute c w =
    match collected w c with
    | [] => humanoids w
    | _ :: _ => <[Humanoid (chars w !!! c) := baseline w c]> (humanoids w)
    end.
Proof.
  unfold recompute. destruct (collected w c) eqn:E; [done|].
  unfold mergeLoop. rewrite mergeLoop_skips; [done|].
  rewrite <- E. apply collected_no_data.
Qed.

(** When every attached effect exposes humanoid data, the pass changes
    nothing. *)
Lemma updateHumanoidProps_all_exposed c w :
  Forall (λ entry, se_humanoidData (effects w !!! entry.2) ≠ None) (smap w c) →
  updateHumanoidProps c w = (w, Ok tt).
Proof.
  intros H. rewrite updateHumanoidProps_run, recompute_baseline.
  assert (collected w c = []) as ->; [|by destruct w].
  unfold collected. induction H as [|[k e] m Hx _ IH]; [done|].
  cbn in *. destruct (se_humanoidData _); [exact IH | done].
Qed.

(** ** Attachment and destruction keep the frames *)

Lemma keeps_pure {A : Type} (R : World → World → Prop) `{!Reflexive R} (m : Eff A) :
  (∀ w, (m w).1 = w) → keeps R m.
Proof. intros H w. by rewrite H. Qed.

Lemma succeeds_pure {A : Type} (f : World → A) : succeeds (λ w, (w, Ok (f w))).
Proof. intros w. by eexists. Qed.

Lemma keeps_CharFrame_fire s : keeps CharFrame (fire s).
Proof. intros w. by split. Qed.

Lemma keeps_EffectFrame_fire s : keeps EffectFrame (fire s).
Proof. intros w. by split. Qed.

Create HintDb frames discriminated.

(** One step through the structure of a computation; the frames of the
    operations proved so far are in the database [frames]. *)
Ltac keeps_step :=
  lazymatch goal with
  | |- keeps _ (_ ≫= _) => apply keeps_bind; [apply _ | | intros ?]
  | |- keeps _ (mret _) => apply keeps_ret; apply _
  | |- keeps _ (when _ _) => apply keeps_when; [apply _ |]
  | |- keeps _ (forEach _ _) => apply keeps_forEach; [apply _ | apply _ | intros ?]
  | |- keeps _ (getStatus _) => apply keeps_pure; [apply _ | done]
  | |- keeps _ (getChar _) => apply keeps_pure; [apply _ | done]
  | |- keeps _ get => apply keeps_pure; [apply _ | done]
  | |- keeps _ (logError _) => apply keeps_pure; [apply _ | done]
  | |- keeps CharFrame (updateHumanoidProps _) => apply keeps_CharFrame_updateHumanoidProps
  | |- keeps EffectFrame (updateHumanoidProps _) => apply keeps_EffectFrame_updateHumanoidProps
  | |- keeps CharFrame (fire _) => apply keeps_CharFrame_fire
  | |- keeps EffectFrame (fire _) => apply keeps_EffectFrame_fire
  | |- keeps CharFrame (modifyChar _ _) => apply keeps_CharFrame_modifyChar; done
  | |- keeps EffectFrame (modifyChar _ _) => apply keeps_EffectFrame_modifyChar
  | |- keeps CharFrame (modifyStatus _ _) => apply keeps_CharFrame_modifyStatus
  | |- keeps EffectFrame (modifyStatus _ _) => apply keeps_EffectFrame_modifyStatus; done
  | |- keeps _ _ => solve [auto 1 with frames nocore]
  end.

Ltac succeeds_step :=
  lazymatch goal with
  | |- succeeds (_ ≫= _) => apply succeeds_bind; [| intros ?]
  | |- succeeds (mret _) => apply succeeds_ret
  | |- succeeds (when _ _) => apply succeeds_when
  | |- succeeds (forEach _ _) => apply succeeds_forEach; intros ?
  | |- succeeds (updateHumanoidProps _) => apply succeeds_updateHumanoidProps
  | |- succeeds (modify _) => apply succeeds_modify
  | |- succeeds (fire _) => apply succeeds_modify
  | |- succeeds (modifyChar _ _) => apply succeeds_modify
  | |- succeeds (modifyStatus _ _) => apply succeeds_modify
  | |- succeeds (getStatus _) => apply succeeds_pure
  | |- succeeds (getChar _) => apply succeeds_pure
  | |- succeeds get => apply (succeeds_pure (λ w, w))
  | |- succeeds _ => solve [auto 1 with frames nocore]
  end.

Lemma keeps_CharFrame__addStatus c Status : keeps CharFrame (_addStatus c Status).
Proof.
  unfold _addStatus, GetId, HumanoidDataChanged_Connect, Destroyed_Once.
  repeat keeps_step.
Qed.

Lemma keeps_EffectFrame__addStatus c Status : keeps EffectFrame (_addStatus c Status).
Proof.
  unfold _addStatus, GetId, HumanoidDataChanged_Connect, Destroyed_Once.
  repeat keeps_step.
Qed.

Lemma succeeds__addStatus c Status : succeeds (_addStatus c Status).
Proof.
  unfold _addStatus, GetId, HumanoidDataChanged_Connect, Destroyed_Once.
  repeat succeeds_step.
Qed.

Global Hint Resolve keeps_CharFrame__addStatus keeps_EffectFrame__addStatus
  succeeds__addStatus : frames.

Lemma keeps_CharFrame_onStatusDestroyed Status h :
  keeps CharFrame (onStatusDestroyed Status h).
Proof. unfold onStatusDestroyed, GetId, Disconnect. repeat keeps_step. Qed.

Lemma keeps_EffectFrame_onStatusDestroyed Status h :
  keeps EffectFrame (onStatusDestroyed Status h).
Proof. unfold onStatusDestroyed, GetId, Disconnect. repeat keeps_step. Qed.

Lemma succeeds_onStatusDestroyed Status h : succeeds (onStatusDestroyed Status h).
Proof. unfold onStatusDestroyed, GetId, Disconnect. repeat succeeds_step. Qed.

Global Hint Resolve keeps_CharFrame_onStatusDestroyed
  keeps_EffectFrame_onStatusDestroyed succeeds_onStatusDestroyed : frames.

Lemma keeps_CharFrame_Destroy Status : keeps CharFrame (StatusEffect_Destroy Status).
Proof.
  unfold StatusEffect_Destroy.
  repeat keeps_step.
Qed.

Lemma keeps_EffectFrame_Destroy Status : keeps EffectFrame (StatusEffect_Destroy Status).
Proof.
  unfold StatusEffect_Destroy.
  repeat keeps_step.
Qed.

Lemma succeeds_Destroy Status : succeeds (StatusEffect_Destroy Status).
Proof.
  unfold StatusEffect_Destroy.
  repeat succeeds_step.
Qed.

Global Hint Resolve keeps_CharFrame_Destroy keeps_EffectFrame_Destroy
  succeeds_Destroy : frames.

(** ** What attachment and destruction do to the effect map *)

Lemma insert_modify_twice {A : Type} `{!Inhabited A} (f g : A → A) (l : list A) (i : nat) :
  <[i := g (<[i := f (l !!! i)]> l !!! i)]> (<[i := f (l !!! i)]> l)
  = <[i := g (f (l !!! i))]> l.
Proof.
  destruct (decide (i < length l)%nat) as [Hlt|Hge].
  - by rewrite list_lookup_total_insert_eq, list_insert_insert_eq.
  - by rewrite !(list_insert_ge l) by lia.
Qed.

(** [_addStatus] registers the effect under its id and rewrites no other
    object than the character and the effect. *)
Lemma _addStatus_run c Status w :
  ∃ g hs,
    (∀ x, se_id (g x) = se_id x ∧ se_className (g x) = se_className x
          ∧ se_humanoidData (g x) = se_humanoidData x
          ∧ se_destroyed (g x) = se_destroyed x
          ∧ Destroyed (g x)
            = Destroyed x ++ [mkOnce c (length (HumanoidDataChanged x))]
          ∧ HumanoidDataChanged (g x)
            = HumanoidDataChanged x ++ [mkConnection c true]) ∧
    _addStatus c Status w =
      (mkWorld (tables w) (charMaps w)
         (<[c := set_janitor
                   (λ j, j ++ [JConnection Status
                                 (length (HumanoidDataChanged (effects w !!! Status)))])
                   (set_statusEffects (omap_set (se_id (effects w !!! Status)) Status)
                      (chars w !!! c))]> (chars w))
         (<[Status := g (effects w !!! Status)]> (effects w))
         hs
         (signals w ++ [StatusEffectAdded c Status])
         (producer w),
       Ok tt).
Proof.
  eexists (λ x, set_Destroyed (λ hs, hs ++ [mkOnce c (length (HumanoidDataChanged x))])
                  (set_HumanoidDataChanged (λ conns, conns ++ [mkConnection c true]) x)).
  eexists. split; [done|].
  unfold _addStatus, GetId, HumanoidDataChanged_Connect, Destroyed_Once,
    modifyChar, modifyStatus, fire, getStatus, modify.
  unfold mbind, Eff_bind, mret, Eff_ret. cbn.
  rewrite updateHumanoidProps_run.
  unfold set_effects, set_chars, set_signals, set_humanoids.
  cbn [fst snd tables charMaps chars effects humanoids signals producer].
  rewrite (insert_modify_twice
             (set_statusEffects (omap_set (se_id (effects w !!! Status)) Status))
             (set_janitor (λ j, j ++ [JConnection Status
                (length (HumanoidDataChanged (effects w !!! Status)))]))).
  rewrite (insert_modify_twice
             (set_HumanoidDataChanged (λ conns, conns ++ [mkConnection c true]))
             (set_Destroyed (λ hs, hs ++ [mkOnce c
                (length (HumanoidDataChanged (effects w !!! Status)))]))).
  reflexivity.
Qed.

Lemma _addStatus_smap c Status w :
  (c < length (chars w))%nat →
  smap (_addStatus c Status w).1 c
  = omap_set (se_id (effects w !!! Status)) Status (smap w c).
Proof.
  intros Hc. destruct (_addStatus_run c Status w) as (g & hs & _ & ->).
  unfold smap. cbn. by rewrite list_lookup_total_insert_eq.
Qed.

(** The handler of [_addStatus] runs the pass on a state from which the entry
    is gone, the connection cut and the notification sent. *)
Lemma onStatusDestroyed_run Status h w :
  onStatusDestroyed Status h w =
    updateHumanoidProps (once_owner h)
      (mkWorld (tables w) (charMaps w)
         (<[once_owner h :=
              set_statusEffects (omap_delete (se_id (effects w !!! Status)))
                (chars w !!! once_owner h)]> (chars w))
         (<[Status :=
              set_HumanoidDataChanged
                (alter (λ cn, mkConnection (conn_owner cn) false) (once_conn h))
                (effects w !!! Status)]> (effects w))
         (humanoids w)
         (signals w ++ [StatusEffectRemoved (once_owner h) Status])
         (producer w)).
Proof.
  unfold onStatusDestroyed, GetId, Disconnect, modifyChar, modifyStatus, fire,
    getStatus, modify.
  unfold mbind, Eff_bind, mret, Eff_ret.
  unfold set_effects, set_chars, set_signals.
  cbn [fst snd tables charMaps chars effects humanoids signals producer].
  by rewrite (lookup_total_modify se_id).
Qed.

Lemma onStatusDestroyed_only_deletes Status h w :
  only_deletes (se_id (effects w !!! Status)) w (onStatusDestroyed Status h w).1.
Proof.
  rewrite onStatusDestroyed_run, updateHumanoidProps_run.
  intros c k. unfold smap. cbn.
  destruct (decide (once_owner h = c)) as [<-|Hne];
    [destruct (decide (once_owner h < length (chars w))%nat) as [Hlt|Hge]|].
  - rewrite list_lookup_total_insert_eq by done. cbn.
    rewrite omap_get_delete. destruct (String.eqb k _) eqn:E; [|by left].
    apply String.eqb_eq in E. by right.
  - rewrite list_insert_ge by lia. by left.
  - rewrite list_lookup_total_insert_ne by done. by left.
Qed.

Lemma forEach_onStatusDestroyed_only_deletes Status hs w :
  only_deletes (se_id (effects w !!! Status)) w
    (forEach (onStatusDestroyed Status) hs w).1.
Proof.
  revert w. induction hs as [|h hs IH]; intros w; cbn [forEach].
  - apply only_deletes_refl.
  - unfold mbind, Eff_bind.
    pose proof (onStatusDestroyed_only_deletes Status h w) as H1.
    pose proof (keeps_EffectFrame_onStatusDestroyed Status h w) as HF.
    destruct (succeeds_onStatusDestroyed Status h w) as [[] Hok].
    destruct (onStatusDestroyed Status h w) as [w1 r]; cbn [fst snd] in *; subst r.
    etrans; [exact H1|].
    rewrite <- (fr_id _ _ HF Status). apply IH.
Qed.

(** [Destroy] marks the effect and runs the handlers on the marked state. *)
Lemma Destroy_run Status w :
  StatusEffect_Destroy Status w =
    forEach (onStatusDestroyed Status) (Destroyed (effects w !!! Status))
      (mkWorld (tables w) (charMaps w) (chars w)
         (<[Status := set_se_destroyed true
                        (set_Destroyed (λ _, []) (effects w !!! Status))]> (effects w))
         (humanoids w) (signals w ++ [StatusDestroyed Status]) (producer w)).
Proof. reflexivity. Qed.

Lemma Destroy_only_deletes Status w :
  only_deletes (se_id (effects w !!! Status)) w (StatusEffect_Destroy Status w).1.
Proof.
  rewrite Destroy_run.
  set (wm := mkWorld _ _ _ _ _ _ _).
  assert (se_id (effects wm !!! Status) = se_id (effects w !!! Status)) as <-.
  { subst wm. cbn.
    by apply (lookup_total_modify se_id
                (λ s, set_se_destroyed true (set_Destroyed (λ _, []) s))). }
  etrans; [|apply forEach_onStatusDestroyed_only_deletes].
  intros c k. by left.
Qed.

Lemma Destroy_destroyed Status w :
  (Status < length (effects w))%nat →
  se_destroyed (effects (StatusEffect_Destroy Status w).1 !!! Status) = true.
Proof.
  intros Hlt. rewrite Destroy_run.
  set (wm := mkWorld _ _ _ _ _ _ _).
  assert (keeps EffectFrame (forEach (onStatusDestroyed Status)
            (Destroyed (effects w !!! Status)))) as HF by repeat keeps_step.
  apply (fr_destroyed _ _ (HF wm)).
  subst wm. cbn. by rewrite list_lookup_total_insert_eq.
Qed.

(** ** Reconciliation: additions (lines 195-199) *)

Lemma keeps_CharFrame_new_StatusEffect ctor cls c Id :
  keeps CharFrame (new_StatusEffect ctor cls c Id).
Proof.
  unfold new_StatusEffect. repeat keeps_step.
  apply keeps_modify. intros w. by split.
Qed.

Global Hint Resolve keeps_CharFrame_new_StatusEffect : frames.

Lemma keeps_CharFrame_addMissing env c entry : keeps CharFrame (addMissing env c entry).
Proof.
  unfold addMissing, processStatusAddition. keeps_step; [keeps_step|].
  destruct (isNil _); [|keeps_step].
  destruct (GetRegisteredStatusEffectConstructor _ _); repeat keeps_step.
Qed.

Global Hint Resolve keeps_CharFrame_addMissing : frames.

(** An id of the snapshot that the local map holds is left alone. *)
Lemma addMissing_present env c Id Data w :
  omap_get Id (smap w c) ≠ None → addMissing env c (Id, Data) w = (w, Ok tt).
Proof.
  unfold addMissing, getChar, mbind, Eff_bind, smap. cbn.
  by destruct (omap_get _ _).
Qed.

(** An id that the local map lacks, of a registered class: one effect is
    constructed, with this id, and the map receives it under the id. *)
Lemma addMissing_absent env c Id Data ctor w :
  (c < length (chars w))%nat →
  omap_get Id (smap w c) = None →
  GetRegisteredStatusEffectConstructor env (className Data) = Some ctor →
  ∃ x w',
    addMissing env c (Id, Data) w = (w', Ok tt)
    ∧ effects w' = effects w ++ [x]
    ∧ se_id x = Id ∧ se_className x = className Data
    ∧ se_destroyed x = false
    ∧ smap w' c = smap w c ++ [(Id, length (effects w))].
Proof.
  intros Hc Habs Hreg.
  unfold addMissing, processStatusAddition, getChar, mbind, Eff_bind. cbn.
  fold (smap w c). rewrite Habs, Hreg. cbn.
  unfold new_StatusEffect, get, modify, mbind, Eff_bind, mret, Eff_ret, modifyChar, when.
  cbn [fst snd].
  set (new := mkStatus Id (className Data) (ctor_humanoidData ctor) false [] []).
  set (wa := set_effects (λ es, es ++ [new]) w).
  assert (effects wa !!! length (effects w) = new) as Hnew.
  { subst wa. cbn. by apply list_lookup_total_middle. }
  destruct (ctor_attaches ctor).
  - destruct (_addStatus_run c (length (effects w)) wa) as (g & hs & Hg & ->).
    rewrite Hnew. destruct (Hg new) as (Hg1 & Hg2 & _ & Hg4 & _).
    eexists (g new), _. split; [reflexivity|]. cbn.
    split; [|split; [done|split; [done|split; [done|]]]].
    + rewrite insert_app_r_alt by done. by rewrite Nat.sub_diag.
    + unfold smap. cbn.
      rewrite list_insert_insert_eq, list_lookup_total_insert_eq by done. cbn.
      rewrite list_lookup_total_insert_eq by done. cbn.
      rewrite omap_set_set. by apply omap_set_absent.
  - eexists new, _. split; [reflexivity|]. cbn.
    split; [done|split; [done|split; [done|split; [done|]]]].
    unfold smap. cbn. rewrite list_lookup_total_insert_eq by done. cbn.
    by apply omap_set_absent.
Qed.

(** The entries that the additions append: the [i]-th new entry refers to the
    [i]-th new effect. *)
Lemma elem_of_zip_seq {A : Type} (l : list A) (n : nat) (a : A) (e : nat) :
  (a, e) ∈ zip l (seq n (length l)) ↔ (n ≤ e)%nat ∧ l !! (e - n)%nat = Some a.
Proof.
  revert n. induction l as [|x l IH]; intros n; cbn.
  - split; [by intros ?%elem_of_nil | by intros [_ ?]].
  - rewrite elem_of_cons, IH. split.
    + intros [[= -> ->]|[Hle Hl]].
      * split; [lia|]. by rewrite Nat.sub_diag.
      * split; [lia|]. by replace (e - n)%nat with (S (e - S n)) by lia.
    + intros [Hle Hl]. destruct (decide (e = n)) as [->|Hne].
      * left. rewrite Nat.sub_diag in Hl. by simplify_eq/=.
      * right. split; [lia|].
        by replace (e - n)%nat with (S (e - S n)) in Hl by lia.
Qed.

Lemma fst_zip_seq {A : Type} (l : list A) (n : nat) :
  (zip l (seq n (length l))).*1 = l.
Proof. apply fst_zip. by rewrite length_seq. Qed.

Lemma omap_get_app_None {V : Type} k (m1 m2 : list (string * V)) :
  omap_get k (m1 ++ m2) = None ↔ omap_get k m1 = None ∧ omap_get k m2 = None.
Proof.
  rewrite !omap_get_None, fmap_app, elem_of_app. tauto.
Qed.

(** The snapshot entries whose id the local map lacks. *)
Lemma addMissing_all env c L w :
  (c < length (chars w))%nat →
  NoDup L.*1 →
  (∀ Id Data, (Id, Data) ∈ L → omap_get Id (smap w c) = None →
     is_Some (GetRegisteredStatusEffectConstructor env (className Data))) →
  ∃ xs w',
    forEach (addMissing env c) L w = (w', Ok tt)
    ∧ effects w' = effects w ++ xs
    ∧ Forall2 (λ x entry, se_id x = entry.1 ∧ se_className x = className entry.2
                          ∧ se_destroyed x = false) xs
        (List.filter (λ entry, isNil (omap_get entry.1 (smap w c))) L)
    ∧ smap w' c = smap w c ++ zip (se_id <$> xs) (seq (length (effects w)) (length xs)).
Proof.
  revert w. induction L as [|[Id Data] L IH]; intros w Hc Hnd Hreg.
  - exists [], w. cbn. by rewrite !app_nil_r.
  - apply NoDup_cons in Hnd as [HId Hnd]. cbn [forEach List.filter fst snd].
    destruct (omap_get Id (smap w c)) as [e|] eqn:Hget; cbn [isNil].
    + destruct (IH w Hc Hnd) as (xs & w' & Hrun & H).
      { intros Id' Data' Hin Habs. apply (Hreg Id' Data'); [by right | done]. }
      exists xs, w'. split; [|exact H].
      erewrite bind_Ok; [exact Hrun|]. apply addMissing_present. congruence.
    + destruct (Hreg Id Data) as [ctor Hctor]; [by left | done |].
      destruct (addMissing_absent env c Id Data ctor w Hc Hget Hctor)
        as (x & wa & Hrun & Heff & Hid & Hcls & Hdes & Hsmap).
      pose proof (keeps_CharFrame_addMissing env c (Id, Data) w) as HF.
      rewrite Hrun in HF. cbn in HF.
      assert (∀ entry : string * StatusData, In entry L →
                isNil (omap_get entry.1 (smap wa c))
                = isNil (omap_get entry.1 (smap w c))) as Hsame.
      { intros [Id' Data'] Hin. cbn. rewrite Hsmap.
        destruct (omap_get Id' (smap w c ++ _)) eqn:E1.
        - destruct (omap_get Id' (smap w c)) eqn:E2; [done|]. exfalso.
          assert (Id' ≠ Id) as Hne.
          { intros ->. apply HId, list_elem_of_fmap. exists (Id, Data').
            split; [done|]. by apply list_elem_of_In. }
          assert (omap_get Id' (smap w c ++ [(Id, length (effects w))]) = None);
            [|congruence].
          apply omap_get_app_None. split; [done|]. cbn.
          by apply String.eqb_neq in Hne as ->.
        - by apply omap_get_app_None in E1 as [-> _]. }
      destruct (IH wa) as (xs & w' & Hrun' & Heff' & Hall & Hsmap').
      { by rewrite (fr_chars _ _ HF). }
      { done. }
      { intros Id' Data' Hin Habs. apply (Hreg Id' Data'); [by right|].
        assert (In (Id', Data') L) as Hin' by by apply list_elem_of_In.
        pose proof (Hsame (Id', Data') Hin') as Heq. cbn in Heq.
        rewrite Habs in Heq. by destruct (omap_get Id' (smap w c)). }
      exists (x :: xs), w'. split; [by erewrite bind_Ok|].
      split; [by rewrite Heff', Heff, <- app_assoc|].
      split.
      * constructor; [done|]. by rewrite <- (filter_ext_in _ _ L Hsame).
      * rewrite Hsmap', Hsmap, Heff, <- app_assoc, length_app. cbn.
        by rewrite Hid, Nat.add_1_r.
Qed.

(** ** Reconciliation: removals (lines 201-205) *)

Lemma destroyStale_all c (S : list (string * StatusData)) E w :
  NoDup E.*1 →
  (∀ k e, (k, e) ∈ E →
     omap_get k (smap w c) = Some e ∧ se_id (effects w !!! e) = k
     ∧ (e < length (effects w))%nat) →
  ∃ w',
    forEach (destroyStale c S) E w = (w', Ok tt)
    ∧ CharFrame w w' ∧ EffectFrame w w'
    ∧ (∀ c' k, omap_has k S = true → omap_get k (smap w' c') = omap_get k (smap w c'))
    ∧ (∀ k e, (k, e) ∈ E → omap_has k S = false →
         se_destroyed (effects w' !!! e) = true).
Proof.
  revert w. induction E as [|[k e] E IH]; intros w Hnd Hinv.
  - exists w. split; [done|]. split; [reflexivity|]. split; [reflexivity|].
    split; [done|]. intros k e Hin. by apply elem_of_nil in Hin.
  - apply NoDup_cons in Hnd as [Hk Hnd]. cbn [forEach].
    destruct (Hinv k e) as (Hget & Hid & Hlt); [by left|].
    assert (∀ k' e', (k', e') ∈ E → k' ≠ k) as Hne.
    { intros k' e' Hin ->. apply Hk, list_elem_of_fmap. by exists (k, e'). }
    destruct (omap_has k S) eqn:Hhas.
    + (* the id is in the snapshot: the entry stays *)
      destruct (IH w Hnd) as (w' & Hrun & HC & HE & Hkeep & Hdes).
      { intros k' e' Hin. apply Hinv. by right. }
      exists w'. split.
      { erewrite bind_Ok; [exact Hrun|].
        unfold destroyStale, getChar, mbind, Eff_bind. cbn.
        fold (smap w c). by rewrite Hget, Hhas, andb_false_r. }
      split; [done|]. split; [done|]. split; [done|].
      intros k' e' [Heq|Hin]%elem_of_cons Hstale; [|by eapply Hdes].
      simplify_eq. congruence.
    + (* the id is stale: the effect is destroyed *)
      pose proof (keeps_CharFrame_Destroy e w) as HC1.
      pose proof (keeps_EffectFrame_Destroy e w) as HE1.
      pose proof (Destroy_only_deletes e w) as Hdel.
      pose proof (Destroy_destroyed e w Hlt) as Hd.
      destruct (succeeds_Destroy e w) as [[] Hok].
      destruct (StatusEffect_Destroy e w) as [wd r] eqn:Hrun1.
      cbn [fst snd] in *. subst r. rewrite Hid in Hdel.
      destruct (IH wd Hnd) as (w' & Hrun & HC & HE & Hkeep & Hdes).
      { intros k' e' Hin. destruct (Hinv k' e') as (Hget' & Hid' & Hlt'); [by right|].
        split; [|split].
        - destruct (Hdel c k') as [->|[-> _]]; [done|]. by destruct (Hne k e' Hin).
        - by rewrite (fr_id _ _ HE1).
        - by rewrite (fr_effects _ _ HE1). }
      exists w'. split.
      { erewrite bind_Ok; [exact Hrun|].
        unfold destroyStale, getChar, mbind, Eff_bind. cbn.
        fold (smap w c). by rewrite Hget, Hhas, Nat.eqb_refl. }
      split; [by etrans|]. split; [by etrans|]. split.
      * intros c' k' Hin. rewrite Hkeep by done.
        destruct (Hdel c' k') as [->|[-> _]]; [done | congruence].
      * intros k' e' [Heq|Hin]%elem_of_cons Hstale; [|by eapply Hdes].
        simplify_eq. by apply (fr_destroyed _ _ HE).
Qed.

(** ** Baseline properties *)

Lemma SetDefaultProps_run env c Props w :
  SetDefaultProps env c Props w =
    (mkWorld (tables w) (charMaps w)
       (<[c := set_defaultsProps Props (chars w !!! c)]> (chars w))
       (effects w) (humanoids w) (signals w)
       (producer w ++
          if IsServer env then [patchCharacterData (Instance_ (chars w !!! c)) Props]
          else []),
     Ok tt).
Proof.
  unfold SetDefaultProps, getChar, modifyChar, modify, dispatch, when,
    mbind, Eff_bind, mret, Eff_ret.
  destruct (IsServer env); cbn; [done|]. by rewrite app_nil_r.
Qed.

Lemma SetDefaultProps_smap env c Props w c' :
  smap (SetDefaultProps env c Props w).1 c' = smap w c'.
Proof.
  rewrite SetDefaultProps_run. unfold smap. cbn.
  by apply (lookup_total_modify statusEffects).
Qed.

(** ** Reconciliation: the cycle *)

Lemma omap_get_Some_elem {V : Type} k (v : V) m : omap_get k m = Some v → (k, v) ∈ m.
Proof.
  induction m as [|[k0 v0] m IH]; cbn; [done|].
  destruct (String.eqb k k0) eqn:E.
  - apply String.eqb_eq in E as ->. intros [= ->]. by left.
  - intros H. right. by apply IH.
Qed.

Lemma NoDup_fst_filter {V : Type} (f : string * V → bool) (l : list (string * V)) :
  NoDup l.*1 → NoDup (List.filter f l).*1.
Proof.
  induction l as [|x l IH]; cbn; [done|].
  rewrite NoDup_cons. intros [Hx Hnd]. destruct (f x); cbn; [|by apply IH].
  apply NoDup_cons. split; [|by apply IH].
  intros [y [Hy Hin]]%list_elem_of_fmap. apply Hx, list_elem_of_fmap.
  exists y. split; [done|]. by apply list_elem_of_In, filter_In in Hin as [?%list_elem_of_In _].
Qed.

(** C5, amended.  On an observing process, take a snapshot (a map: no id
    twice) in which the class of every id that the local map lacks is
    registered, and a local map whose entries hold live effects under their
    ids.  The cycle returns.  It constructs exactly one effect for each id of
    the snapshot that the local map lacked, in the order of the snapshot: the
    [i]-th of them is the [i]-th new object of the heap, carries the id and the
    class name of its entry, and the local map holds it under that id.  Every
    effect that the local map held under an id absent from the snapshot is
    destroyed, and an id present on both sides keeps its effect. *)
Theorem onCharacterData_reconciles env c d w :
  (c < length (chars w))%nat →
  NoDup (cd_statusEffects d).*1 →
  NoDup (smap w c).*1 →
  (∀ k e, (k, e) ∈ smap w c →
     se_id (effects w !!! e) = k ∧ (e < length (effects w))%nat) →
  (∀ Id Data, (Id, Data) ∈ cd_statusEffects d → omap_get Id (smap w c) = None →
     is_Some (GetRegisteredStatusEffectConstructor env (className Data))) →
  let missing :=
    List.filter (λ entry, isNil (omap_get entry.1 (smap w c))) (cd_statusEffects d) in
  ∃ w',
    onCharacterData env c (Some d) w = (w', Ok tt)
    ∧ length (effects w') = (length (effects w) + length missing)%nat
    ∧ (∀ i Id Data, missing !! i = Some (Id, Data) →
         omap_get Id (smap w' c) = Some (length (effects w) + i)%nat
         ∧ se_id (effects w' !!! (length (effects w) + i)%nat) = Id
         ∧ se_className (effects w' !!! (length (effects w) + i)%nat) = className Data)
    ∧ (∀ k e, omap_get k (smap w c) = Some e →
         omap_has k (cd_statusEffects d) = false →
         se_destroyed (effects w' !!! e) = true)
    ∧ (∀ k e, omap_get k (smap w c) = Some e →
         omap_has k (cd_statusEffects d) = true →
         omap_get k (smap w' c) = Some e).
Proof.
  intros Hc HndS Hnd Hinv Hreg missing.
  destruct (addMissing_all env c (cd_statusEffects d) w Hc HndS Hreg)
    as (xs & w1 & Hrun1 & Heff1 & Hall & Hsmap1).
  fold missing in Hall.
  assert (se_id <$> xs = missing.*1) as Hids.
  { clear -Hall. induction Hall as [|x y xs ys (Hid & _) _ IH]; cbn; [done|].
    by rewrite Hid, IH. }
  assert (length xs = length missing) as Hlen by by eapply Forall2_length.
  (* the map after the additions is a map, and its keys are the ids *)
  assert (NoDup (smap w1 c).*1) as Hnd1.
  { rewrite Hsmap1, fmap_app, <- (length_fmap se_id xs), fst_zip_seq, Hids.
    apply NoDup_app. split; [done|]. split; [|by apply NoDup_fst_filter].
    intros k Hk [[k' Data] [-> Hin]]%list_elem_of_fmap.
    apply list_elem_of_In, filter_In in Hin as [_ Hnil]. cbn in *.
    destruct (omap_get k' (smap w c)) eqn:E; [done|].
    by apply omap_get_None in E. }
  assert (∀ k e, (k, e) ∈ smap w1 c →
            omap_get k (smap w1 c) = Some e ∧ se_id (effects w1 !!! e) = k
            ∧ (e < length (effects w1))%nat) as Hinv1.
  { intros k e Hin. split; [by apply omap_get_elem|].
    rewrite Hsmap1 in Hin. rewrite Heff1, length_app.
    apply elem_of_app in Hin as [Hin|Hin].
    - destruct (Hinv k e Hin) as [Hid Hlt].
      rewrite lookup_total_app_l by done. split; [done | lia].
    - rewrite <- (length_fmap se_id xs) in Hin.
      apply elem_of_zip_seq in Hin as [Hle Hl].
      rewrite list_lookup_fmap in Hl.
      destruct (xs !! (e - length (effects w))%nat) as [x|] eqn:Hx; [|done].
      cbn in Hl. simplify_eq. pose proof (lookup_lt_Some _ _ _ Hx) as Hlt.
      split; [|lia].
      rewrite lookup_total_app_r by done.
      by rewrite (list_lookup_total_correct _ _ _ Hx). }
  destruct (destroyStale_all c (cd_statusEffects d) (smap w1 c) w1 Hnd1 Hinv1)
    as (w2 & Hrun2 & HC2 & HE2 & Hkeep & Hdes).
  (* the final step does not touch the effects or the map *)
  set (last := λ this : Character,
         when (negb (Nat.eqb (cd_defaultProps d) (defaultsProps this)))
              (SetDefaultProps env c (cd_defaultProps d))).
  assert (∃ w', onCharacterData env c (Some d) w = (w', Ok tt)
                ∧ effects w' = effects w2 ∧ smap w' c = smap w2 c)
    as (w' & Hrun & Heff & Hsmap).
  { unfold onCharacterData.
    erewrite bind_Ok; [|exact Hrun1].
    erewrite bind_Ok; [|reflexivity]. cbn [fst snd]. fold (smap w1 c).
    erewrite bind_Ok; [|exact Hrun2].
    erewrite bind_Ok; [|reflexivity].
    unfold when. destruct (negb _).
    - rewrite SetDefaultProps_run. eexists. split; [done|]. split; [done|].
      unfold smap. cbn. by apply (lookup_total_modify statusEffects).
    - by eexists. }
  exists w'. split; [done|]. rewrite Heff, Hsmap.
  split; [|split; [|split]].
  - by rewrite (fr_effects _ _ HE2), Heff1, length_app, Hlen.
  - intros i Id Data Hi.
    destruct (Forall2_lookup_r _ _ _ _ _ Hall Hi) as (x & Hx & Hid & Hcls & _).
    cbn in Hid, Hcls.
    assert ((Id, (length (effects w) + i)%nat) ∈ smap w1 c) as Hin.
    { rewrite Hsmap1. apply elem_of_app. right.
      rewrite <- (length_fmap se_id xs). apply elem_of_zip_seq. split; [lia|].
      replace (length (effects w) + i - length (effects w))%nat with i by lia.
      by rewrite list_lookup_fmap, Hx; cbn; rewrite Hid. }
    assert (effects w1 !!! (length (effects w) + i)%nat = x) as Hlook.
    { rewrite Heff1, lookup_total_app_r by lia.
      replace (length (effects w) + i - length (effects w))%nat with i by lia.
      by apply list_lookup_total_correct. }
    split; [|split].
    + rewrite Hkeep; [by apply Hinv1|]. apply omap_has_true, list_elem_of_fmap.
      exists (Id, Data). split; [done|].
      apply list_elem_of_lookup_2 in Hi.
      by apply list_elem_of_In, filter_In in Hi as [?%list_elem_of_In _].
    + by rewrite (fr_id _ _ HE2), Hlook.
    + by rewrite (fr_className _ _ HE2), Hlook.
  - intros k e Hget Hstale. apply (Hdes k); [|done].
    rewrite Hsmap1. apply elem_of_app. left. by apply omap_get_Some_elem.
  - intros k e Hget Hkept. rewrite Hkeep by done. apply Hinv1.
    rewrite Hsmap1. apply elem_of_app. left. by apply omap_get_Some_elem.
Qed.

(** ** Destruction of an attached effect *)

Lemma Destroy_single Status c conn w :
  Destroyed (effects w !!! Status) = [mkOnce c conn] →
  StatusEffect_Destroy Status w =
    updateHumanoidProps c
      (mkWorld (tables w) (charMaps w)
         (<[c := set_statusEffects (omap_delete (se_id (effects w !!! Status)))
                   (chars w !!! c)]> (chars w))
         (<[Status :=
              set_HumanoidDataChanged
                (alter (λ cn, mkConnection (conn_owner cn) false) conn)
                (set_se_destroyed true
                   (set_Destroyed (λ _, []) (effects w !!! Status)))]> (effects w))
         (humanoids w)
         (signals w ++ [StatusDestroyed Status; StatusEffectRemoved c Status])
         (producer w)).
Proof.
  intros Hh. rewrite Destroy_run, Hh. cbn [forEach].
  unfold mbind, Eff_bind. rewrite onStatusDestroyed_run.
  cbn [tables charMaps chars effects humanoids signals producer once_owner once_conn].
  rewrite (lookup_total_modify se_id
             (λ s, set_se_destroyed true (set_Destroyed (λ _, []) s))) by done.
  rewrite (insert_modify_twice
             (λ s, set_se_destroyed true (set_Destroyed (λ _, []) s))
             (set_HumanoidDataChanged
                (alter (λ cn, mkConnection (conn_owner cn) false) conn))).
  rewrite <- app_assoc. cbn [app].
  rewrite !updateHumanoidProps_run. reflexivity.
Qed.

(** ** The merge loop on its own

    What the loop of lines 96-118 computes when it is handed statuses that
    carry humanoid data. *)

(** The first Set effect applies: the threshold starts unset. *)
Lemma mergeStep_first_set st hd :
  previousSetMPriority st = None → mode hd = SetMode →
  mergeStep st (Some hd) = applySet hd st.
Proof. unfold mergeStep, setApplies. by intros -> ->. Qed.

(** After a Set effect of non-zero priority [p], a Set effect applies exactly
    when its priority exceeds [p]. *)
Lemma mergeStep_set_threshold st hd p :
  previousSetMPriority st = Some p → truthy p = true → mode hd = SetMode →
  mergeStep st (Some hd) = if gt (Priority hd) p then applySet hd st else st.
Proof. unfold mergeStep, setApplies. by intros -> -> ->. Qed.

(** After a Set effect of non-zero priority, an Increment effect is skipped. *)
Lemma mergeStep_increment_after_set st hd p :
  previousSetMPriority st = Some p → truthy p = true → mode hd = Increment →
  mergeStep st (Some hd) = st.
Proof. unfold mergeStep, notPrevious. by intros -> -> ->. Qed.

(** After a Set effect of priority 0 the threshold reads as unset
    ([!previousSetMPriority] holds for [0]): the next Increment applies. *)
Lemma mergeLoop_set_zero_then_increment :
  WalkSpeed (propsToApply
    (mergeLoop initialDefaults [se_humanoidData set0; se_humanoidData inc10])) = 15%Q.
Proof. reflexivity. Qed.

Lemma mergeLoop_set_then_increment :
  WalkSpeed (propsToApply
    (mergeLoop initialDefaults [se_humanoidData set3; se_humanoidData inc10])) = 10%Q.
Proof. reflexivity. Qed.

(** The higher Set priority wins in both orders. *)
Lemma mergeLoop_higher_set_wins defaults :
  WalkSpeed (propsToApply
    (mergeLoop defaults [se_humanoidData setA; se_humanoidData setB])) = 20%Q
  ∧ WalkSpeed (propsToApply
    (mergeLoop defaults [se_humanoidData setB; se_humanoidData setA])) = 20%Q.
Proof. by split. Qed.

(** Numeric increments add up. *)
Lemma mergeLoop_increments_sum :
  WalkSpeed (propsToApply
    (mergeLoop initialDefaults [se_humanoidData incA; se_humanoidData incB])) = 24%Q.
Proof. reflexivity. Qed.

(** ** The recomputation pass on characters *)

(** C1.  The pass does not consider the effects that expose humanoid data:
    line 85 collects the effects that expose none.  On a character whose only
    effect is an Increment of [WalkSpeed] by 5, nothing is collected and the
    pass returns at line 87 with the world as it was.  On a character whose
    only effect exposes no data and whose humanoid walks at 20, the effect is
    collected and the pass overwrites the live properties with the baseline. *)
Theorem updateHumanoidProps_inverted_filter :
  collected boostedWorld 0 = []
  ∧ updateHumanoidProps 0%nat boostedWorld = (boostedWorld, Ok tt)
  ∧ collected quietWorld 0 = [0%nat]
  ∧ live quietWorld 0 = mkProps 20 50 true (36 # 5)
  ∧ live (updateHumanoidProps 0%nat quietWorld).1 0 = initialDefaults.
Proof. repeat split. Qed.

(** C2.  Set effects A (priority 1, speed 10) and B (priority 5, speed 20)
    attached in either order to a character whose humanoid walks at 16: both
    expose humanoid data, so no pass collects them, and the humanoid still
    walks at 16, not at 20. *)
Theorem attach_two_sets_writes_nothing :
  WalkSpeed (live (attachAll [0; 1]%nat (engineWorld 16 [setA; setB])).1 0) = 16%Q
  ∧ WalkSpeed (live (attachAll [1; 0]%nat (engineWorld 16 [setA; setB])).1 0) = 16%Q.
Proof. split; reflexivity. Qed.

(** C3.  Increment effects of +5 and +3 attached to a character with baseline
    walk speed 16 whose humanoid walks at 16: the humanoid still walks at 16,
    not at 24. *)
Theorem attach_two_increments_writes_nothing :
  WalkSpeed (baseline (attachAll [0; 1]%nat (engineWorld 16 [incA; incB])).1 0) = 16%Q
  ∧ WalkSpeed (live (attachAll [0; 1]%nat (engineWorld 16 [incA; incB])).1 0) = 16%Q.
Proof. split; reflexivity. Qed.

(** C4.  A Set effect at priority 3 (speed 10) followed by an Increment effect
    at priority 10: the first Set effect does not apply, the humanoid keeps its
    walk speed of 16.  And in the loop itself a Set effect of priority 0 leaves
    the threshold falsy, so that the Increment after it is applied: 10 + 5. *)
Theorem set_effect_never_applies :
  WalkSpeed (live (attachAll [0; 1]%nat (engineWorld 16 [set3; inc10])).1 0) = 16%Q
  ∧ WalkSpeed (propsToApply
      (mergeLoop initialDefaults [se_humanoidData set0; se_humanoidData inc10])) = 15%Q.
Proof. split; reflexivity. Qed.

(** ** The constructor *)

(** C6.  Constructing a character over an instance that the global map already
    holds raises, and the failed construction leaves behind nothing but the
    table of its own field initializer: the global map, every character, every
    existing table, the effects, the humanoids and both traces are as they
    were. *)
Theorem new_Character_duplicate env (i : Instance) (canCreateClient : bool) (c0 : cref) w :
  (charMaps w !!! currentCharMap) !! i = Some c0 →
  ∃ msg,
    (new_Character env i canCreateClient w).2 = Raise msg
    ∧ (new_Character env i canCreateClient w).1
      = set_tables (λ ts, ts ++ [initialDefaults]) w
    ∧ charMaps (new_Character env i canCreateClient w).1 = charMaps w
    ∧ chars (new_Character env i canCreateClient w).1 = chars w
    ∧ (∀ l, (l < length (tables w))%nat →
         tables (new_Character env i canCreateClient w).1 !!! l = tables w !!! l).
Proof.
  intros Hdup.
  unfold new_Character, newTable, GetCharacterFromInstance, when, logError,
    mbind, Eff_bind, mret, Eff_ret.
  destruct (IsClient env && negb canCreateClient);
    cbn [fst snd charMaps set_tables]; [|rewrite Hdup; cbn [isNil negb fst snd]];
    eexists;
    (split; [reflexivity|]; split; [reflexivity|]; split; [reflexivity|];
     split; [reflexivity|]; intros l Hl; cbn; by rewrite lookup_total_app_l).
Qed.

Lemma new_Character_duplicate_witness :
  (charMaps attachedWorld !!! currentCharMap) !! 1%positive = Some 0%nat
  ∧ ∃ msg,
      (new_Character serverEnv 1%positive false attachedWorld).2 = Raise msg
      ∧ (new_Character serverEnv 1%positive false attachedWorld).1
        = set_tables (λ ts, ts ++ [initialDefaults]) attachedWorld
      ∧ charMaps (new_Character serverEnv 1%positive false attachedWorld).1
        = charMaps attachedWorld
      ∧ chars (new_Character serverEnv 1%positive false attachedWorld).1
        = chars attachedWorld
      ∧ (∀ l, (l < length (tables attachedWorld))%nat →
           tables (new_Character serverEnv 1%positive false attachedWorld).1 !!! l
           = tables attachedWorld !!! l).
Proof.
  split; [reflexivity|].
  apply (new_Character_duplicate serverEnv 1%positive false 0%nat attachedWorld).
  reflexivity.
Defined.

(** ** Destruction of an attached effect *)

(** The statuses that the pass collects come from the effect map. *)
Lemma collected_in_map w c e : e ∈ collected w c → e ∈ (smap w c).*2.
Proof.
  unfold collected. intros Hin.
  apply list_elem_of_In, filter_In in Hin as [Hin _].
  apply in_map_iff in Hin as ([k e'] & <- & Hin). apply list_elem_of_fmap.
  exists (k, e'). split; [done|]. by apply list_elem_of_In.
Qed.

(** C7.  An effect that [_addStatus] attached to the character [c] holds the
    handler of [c] in its [Destroyed] signal.  Destroying the effect returns,
    and its outcome is that of the recomputation pass run on a state [wr] in
    which the entry of the effect is gone from the map of [c], the connection
    to the change notification is cut and the removed notification is sent;
    the effect is not among the effects of the map that the pass reads.  The
    state [wr] has the humanoids, the baseline and the humanoid data of the
    state before, so the humanoids after the destruction are those that the
    pass computes from the baseline and the effects that remain: the destroyed
    effect is not among the statuses that the pass collects, and the live
    properties of [c] are the result of the merge loop over the statuses that
    remain (or stay as they were when the pass collects none). *)
Theorem Destroy_attached_effect (Status : eref) (c : cref) (conn : nat) w :
  (c < length (chars w))%nat →
  (Status < length (effects w))%nat →
  Destroyed (effects w !!! Status) = [mkOnce c conn] →
  (∀ k e, (k, e) ∈ smap w c → e = Status → k = se_id (effects w !!! Status)) →
  ∃ wr,
    StatusEffect_Destroy Status w = updateHumanoidProps c wr
    ∧ (StatusEffect_Destroy Status w).2 = Ok tt
    ∧ smap wr c = omap_delete (se_id (effects w !!! Status)) (smap w c)
    ∧ smap (StatusEffect_Destroy Status w).1 c = smap wr c
    ∧ omap_get (se_id (effects w !!! Status)) (smap wr c) = None
    ∧ (Status ∉ (smap wr c).*2)
    ∧ (∀ cn, HumanoidDataChanged (effects wr !!! Status) !! conn = Some cn →
         Connected cn = false)
    ∧ effects (StatusEffect_Destroy Status w).1 = effects wr
    ∧ se_destroyed (effects wr !!! Status) = true
    ∧ signals (StatusEffect_Destroy Status w).1
      = signals w ++ [StatusDestroyed Status; StatusEffectRemoved c Status]
    ∧ humanoids wr = humanoids w
    ∧ baseline wr c = baseline w c
    ∧ Humanoid (chars wr !!! c) = Humanoid (chars w !!! c)
    ∧ (∀ e, se_humanoidData (effects wr !!! e) = se_humanoidData (effects w !!! e))
    ∧ (Status ∉ collected wr c)
    ∧ humanoids (StatusEffect_Destroy Status w).1 = recompute c wr
    ∧ ((Humanoid (chars w !!! c) < length (humanoids w))%nat →
         live (StatusEffect_Destroy Status w).1 c
         = match collected wr c with
           | [] => live w c
           | _ :: _ =>
               propsToApply
                 (mergeLoop (baseline w c)
                    (map (λ e, se_humanoidData (effects w !!! e)) (collected wr c)))
           end).
Proof.
  intros Hc Hs Hh Hown.
  pose proof (Destroy_single Status c conn w Hh) as Hrun.
  set (wr := mkWorld _ _ _ _ _ _ _) in Hrun.
  assert (smap wr c = omap_delete (se_id (effects w !!! Status)) (smap w c)) as Hsmap.
  { unfold smap. subst wr. cbn [chars]. by rewrite list_lookup_total_insert_eq. }
  assert (Status ∉ (smap wr c).*2) as Hnot.
  { rewrite Hsmap. intros [[k e] [-> Hin]]%list_elem_of_fmap. cbn in *.
    assert (omap_get k (omap_delete (se_id (effects w !!! e)) (smap w c)) ≠ None) as Hget.
    { intros Hk. apply omap_get_None in Hk. apply Hk, list_elem_of_fmap.
      by exists (k, e). }
    rewrite omap_get_delete in Hget.
    destruct (String.eqb k _) eqn:E; [done|]. apply String.eqb_neq in E.
    apply E, (Hown k e); [|done]. by eapply elem_of_omap_delete. }
  assert (baseline wr c = baseline w c) as Hbase.
  { unfold baseline. subst wr. cbn [chars tables].
    by rewrite list_lookup_total_insert_eq. }
  assert (Humanoid (chars wr !!! c) = Humanoid (chars w !!! c)) as Hhum.
  { subst wr. cbn [chars]. by rewrite list_lookup_total_insert_eq. }
  assert (∀ e, se_humanoidData (effects wr !!! e) = se_humanoidData (effects w !!! e))
    as Hdata.
  { intros e. subst wr. cbn [effects]. destruct (decide (e = Status)) as [->|Hne].
    - by rewrite list_lookup_total_insert_eq.
    - by rewrite list_lookup_total_insert_ne. }
  exists wr. rewrite Hrun, updateHumanoidProps_run.
  cbn [fst snd]. split; [done|]. split; [done|]. split; [exact Hsmap|].
  split; [done|]. split; [rewrite Hsmap; apply omap_get_delete_eq|].
  split; [exact Hnot|]. split.
  { intros cn Hcn. subst wr. cbn [effects] in Hcn.
    rewrite list_lookup_total_insert_eq in Hcn by done.
    cbn [HumanoidDataChanged set_HumanoidDataChanged] in Hcn.
    rewrite list_lookup_alter_eq in Hcn.
    destruct (_ !! conn); by simplify_eq/=. }
  split; [done|]. split.
  { subst wr. cbn [effects]. by rewrite list_lookup_total_insert_eq. }
  split; [done|]. split; [done|]. split; [exact Hbase|]. split; [exact Hhum|].
  split; [exact Hdata|]. split.
  { intros Hin. by apply Hnot, collected_in_map. }
  split; [done|].
  intros Hlt. unfold live. cbn [humanoids chars set_humanoids]. rewrite Hhum.
  unfold recompute. rewrite Hbase, Hhum.
  rewrite (map_ext _ _ Hdata).
  destruct (collected wr c) as [|s l]; [done|].
  by rewrite list_lookup_total_insert_eq.
Qed.

Lemma Destroy_attached_effect_witness :
  (0 < length (chars rebasedWorld))%nat
  ∧ (1 < length (effects rebasedWorld))%nat
  ∧ Destroyed (effects rebasedWorld !!! 1%nat) = [mkOnce 0 0]
  ∧ smap rebasedWorld 0 = [("p", 0%nat); ("s", 1%nat)]
  ∧ WalkSpeed (live rebasedWorld 0) = 16%Q
  ∧ WalkSpeed (baseline rebasedWorld 0) = 20%Q
  ∧ smap (StatusEffect_Destroy 1%nat rebasedWorld).1 0 = [("p", 0%nat)]
  ∧ WalkSpeed (live (StatusEffect_Destroy 1%nat rebasedWorld).1 0) = 20%Q
  ∧ ∃ wr,
      StatusEffect_Destroy 1%nat rebasedWorld = updateHumanoidProps 0%nat wr
      ∧ (1%nat ∉ collected wr 0)
      ∧ humanoids wr = humanoids rebasedWorld
      ∧ humanoids (StatusEffect_Destroy 1%nat rebasedWorld).1 = recompute 0 wr
      ∧ signals (StatusEffect_Destroy 1%nat rebasedWorld).1
        = signals rebasedWorld ++ [StatusDestroyed 1; StatusEffectRemoved 0 1].
Proof.
  split; [vm_compute; lia|]. split; [vm_compute; lia|]. split; [reflexivity|].
  split; [reflexivity|]. split; [reflexivity|]. split; [reflexivity|].
  split; [reflexivity|]. split; [reflexivity|].
  destruct (Destroy_attached_effect 1%nat 0%nat 0%nat rebasedWorld)
    as (wr & H1 & _ & _ & _ & _ & _ & _ & _ & _ & H10 & H11 & _ & _ & _ & H15 & H16 & _).
  - vm_compute; lia.
  - vm_compute; lia.
  - reflexivity.
  - intros k e Hin ->.
    change (smap rebasedWorld 0) with [("p", 0%nat); ("s", 1%nat)] in Hin.
    apply elem_of_cons in Hin as [Hin|Hin%list_elem_of_singleton]; by simplify_eq.
  - exists wr. split; [exact H1|]. split; [exact H15|]. split; [exact H11|].
    split; [exact H16 | exact H10].
Defined.

(** ** Baseline properties and reconciliation *)

Lemma keeps_CharFrame_destroyStale c S entry : keeps CharFrame (destroyStale c S entry).
Proof.
  unfold destroyStale. keeps_step; [keeps_step|].
  destruct (omap_get _ _); [|keeps_step].
  destruct (_ && _); keeps_step.
Qed.

Global Hint Resolve keeps_CharFrame_destroyStale : frames.

Lemma onCharacterData_defaults env c d w w' :
  (c < length (chars w))%nat →
  onCharacterData env c (Some d) w = (w', Ok tt) →
  let differs := negb (Nat.eqb (cd_defaultProps d) (defaultsProps (chars w !!! c))) in
  defaultsProps (chars w' !!! c)
  = (if differs then cd_defaultProps d else defaultsProps (chars w !!! c))
  ∧ tables w' = tables w
  ∧ producer w'
    = producer w ++
        if differs && IsServer env
        then [patchCharacterData (Instance_ (chars w !!! c)) (cd_defaultProps d)]
        else [].
Proof.
  intros Hc. unfold onCharacterData.
  pose proof (keeps_forEach CharFrame (addMissing env c) (cd_statusEffects d)
                (keeps_CharFrame_addMissing env c) w) as HF1.
  unfold mbind, Eff_bind, getChar.
  destruct (forEach (addMissing env c) (cd_statusEffects d) w) as [w1 [[]|msg]];
    [|done].
  cbn [fst snd] in HF1.
  pose proof (keeps_forEach CharFrame (destroyStale c (cd_statusEffects d))
                (statusEffects (chars w1 !!! c))
                (keeps_CharFrame_destroyStale c (cd_statusEffects d)) w1) as HF2.
  destruct (forEach (destroyStale c (cd_statusEffects d)) _ w1) as [w2 [[]|msg]];
    [|done].
  cbn [fst snd] in HF2.
  assert (CharFrame w w2) as HF by by etrans.
  rewrite (fr_defaultsProps _ _ HF). cbv zeta.
  destruct (negb _); cbn [when andb].
  - rewrite SetDefaultProps_run. intros [= <-]. cbn.
    rewrite list_lookup_total_insert_eq by by rewrite (fr_chars _ _ HF).
    by rewrite (fr_tables _ _ HF), (fr_producer _ _ HF), (fr_Instance _ _ HF).
  - intros [= <-]. by rewrite (fr_defaultsProps _ _ HF), (fr_tables _ _ HF),
      (fr_producer _ _ HF), app_nil_r.
Qed.

(** A cycle that stops at an unregistered class has not reached line 207:
    the baseline of the character is the one before. *)
Lemma onCharacterData_raise_defaults env c d w msg :
  (onCharacterData env c (Some d) w).2 = Raise msg →
  defaultsProps (chars (onCharacterData env c (Some d) w).1 !!! c)
  = defaultsProps (chars w !!! c)
  ∧ tables (onCharacterData env c (Some d) w).1 = tables w
  ∧ producer (onCharacterData env c (Some d) w).1 = producer w.
Proof.
  unfold onCharacterData.
  pose proof (keeps_forEach CharFrame (addMissing env c) (cd_statusEffects d)
                (keeps_CharFrame_addMissing env c) w) as HF1.
  unfold mbind, Eff_bind, getChar.
  destruct (forEach (addMissing env c) (cd_statusEffects d) w) as [w1 [[]|msg1]];
    cbn [fst snd] in *.
  - pose proof (keeps_forEach CharFrame (destroyStale c (cd_statusEffects d))
                  (statusEffects (chars w1 !!! c))
                  (keeps_CharFrame_destroyStale c (cd_statusEffects d)) w1) as HF2.
    destruct (forEach (destroyStale c (cd_statusEffects d)) _ w1) as [w2 [[]|msg2]];
      cbn [fst snd] in *.
    + destruct (negb _); cbn [when]; [by rewrite SetDefaultProps_run | done].
    + intros _. assert (CharFrame w w2) as HF by by etrans.
      by rewrite (fr_defaultsProps _ _ HF), (fr_tables _ _ HF), (fr_producer _ _ HF).
  - intros _.
    by rewrite (fr_defaultsProps _ _ HF1), (fr_tables _ _ HF1), (fr_producer _ _ HF1).
Qed.

(** C8, amended.  [SetDefaultProps] makes the argument table the baseline of
    the character, as a whole: the four properties read through the character
    are those of the argument, no table is written, and on the server the
    producer receives one [patchCharacterData] with the table.  A
    reconciliation cycle that completes re-applies the table of the snapshot
    exactly when its reference differs from the cached one, whatever the two
    tables hold.  A cycle that stops with the replication error re-applies
    nothing: the character keeps the baseline it had, whether the references
    differ or not. *)
Theorem SetDefaultProps_wholesale env (c : cref) w :
  (c < length (chars w))%nat →
  (∀ Props,
     (SetDefaultProps env c Props w).2 = Ok tt
     ∧ defaultsProps (chars (SetDefaultProps env c Props w).1 !!! c) = Props
     ∧ tables (SetDefaultProps env c Props w).1 = tables w
     ∧ baseline (SetDefaultProps env c Props w).1 c = tables w !!! Props
     ∧ producer (SetDefaultProps env c Props w).1
       = producer w ++
           if IsServer env
           then [patchCharacterData (Instance_ (chars w !!! c)) Props] else [])
  ∧ (∀ d,
       (onCharacterData env c (Some d) w).2 = Ok tt →
       let w' := (onCharacterData env c (Some d) w).1 in
       let differs := negb (Nat.eqb (cd_defaultProps d) (defaultsProps (chars w !!! c))) in
       defaultsProps (chars w' !!! c)
       = (if differs then cd_defaultProps d else defaultsProps (chars w !!! c))
       ∧ tables w' = tables w
       ∧ producer w'
         = producer w ++
             if differs && IsServer env
             then [patchCharacterData (Instance_ (chars w !!! c)) (cd_defaultProps d)]
             else [])
  ∧ (∀ d msg,
       (onCharacterData env c (Some d) w).2 = Raise msg →
       let w' := (onCharacterData env c (Some d) w).1 in
       defaultsProps (chars w' !!! c) = defaultsProps (chars w !!! c)
       ∧ tables w' = tables w
       ∧ producer w' = producer w).
Proof.
  intros Hc. split; [|split].
  - intros Props. rewrite SetDefaultProps_run. unfold baseline. cbn.
    rewrite list_lookup_total_insert_eq by done. done.
  - intros d Hok.
    destruct (onCharacterData env c (Some d) w) as [w' r] eqn:Hrun.
    cbn [fst snd] in *. subst r. by apply (onCharacterData_defaults env c d w w').
  - intros d msg Hraise. by apply (onCharacterData_raise_defaults env c d w msg).
Qed.

Lemma SetDefaultProps_wholesale_witness :
  (0 < length (chars twinWorld))%nat
  ∧ (onCharacterData clientEnv 0%nat (Some snapshotTwin) twinWorld).2 = Ok tt
  ∧ tables twinWorld !!! 1%nat = baseline twinWorld 0
  ∧ defaultsProps (chars twinWorld !!! 0%nat) = 0%nat
  ∧ defaultsProps
      (chars (onCharacterData clientEnv 0%nat (Some snapshotTwin) twinWorld).1 !!! 0%nat)
    = 1%nat
  ∧ baseline (SetDefaultProps serverEnv 0%nat 1%nat twinWorld).1 0
    = tables twinWorld !!! 1%nat.
Proof.
  assert (0 < length (chars twinWorld))%nat as Hc by (vm_compute; lia).
  destruct (SetDefaultProps_wholesale clientEnv 0%nat twinWorld Hc) as (_ & Hcycle & _).
  destruct (SetDefaultProps_wholesale serverEnv 0%nat twinWorld Hc) as [Hset _].
  split; [exact Hc|]. split; [reflexivity|]. split; [reflexivity|].
  split; [reflexivity|]. split.
  - exact (proj1 (Hcycle snapshotTwin eq_refl)).
  - exact (proj1 (proj2 (proj2 (proj2 (Hset 1%nat))))).
Defined.

(** C8 as stated fails on a snapshot whose baseline reference differs from
    the cached one and which holds an id of an unregistered class: the cycle
    raises at line 177, before line 207, and the baseline of the snapshot is
    not applied. *)
Lemma reconcile_raise_keeps_baseline :
  cd_defaultProps snapshotUnknownTwin = 1%nat
  ∧ defaultsProps (chars twinWorld !!! 0%nat) = 0%nat
  ∧ (onCharacterData clientEnv 0%nat (Some snapshotUnknownTwin) twinWorld).2
    = Raise "Replication Error: Could not find a registered StatusEffect"
  ∧ defaultsProps
      (chars (onCharacterData clientEnv 0%nat (Some snapshotUnknownTwin) twinWorld).1
       !!! 0%nat)
    = 0%nat.
Proof. repeat split. Qed.

(** ** Accessors *)

Global Instance untouched_except_refl l m : Reflexive (untouched_except l m).
Proof. intros w. by repeat split. Qed.

Global Instance untouched_except_trans l m : Transitive (untouched_except l m).
Proof.
  intros w1 w2 w3 (H1 & H2 & H3 & H4 & H5) (G1 & G2 & G3 & G4 & G5).
  split; [congruence|]. split; [congruence|]. split; [congruence|]. split.
  - intros i Hi. by rewrite G4, H4.
  - intros j Hj. by rewrite G5, H5.
Qed.

Lemma keeps_untouched_except_mutate l m mut :
  keeps (untouched_except l m) (mutate l m mut).
Proof.
  intros w. destruct mut as [pm|mm];
    unfold mutate, writeTable, writeMap, modify, untouched_except;
    cbn [fst snd tables charMaps chars set_tables set_charMaps].
  - split; [done|]. split; [by rewrite length_insert|]. split; [done|].
    split; [|done]. intros i Hi. by rewrite list_lookup_total_insert_ne.
  - split; [done|]. split; [done|]. split; [by rewrite length_insert|].
    split; [done|]. intros j Hj. by rewrite list_lookup_total_insert_ne.
Qed.

Lemma succeeds_mutate l m mut : succeeds (mutate l m mut).
Proof. intros w. exists tt. by destruct mut. Qed.

(** C9.  [GetDefaultsProps] and [GetCharacterMap] return fresh tables that hold
    what the baseline table and the global map hold; whatever sequence of
    writes the caller makes to the two tables it received, the characters, the
    baseline of the character and the global map stay as they were. *)
Theorem accessors_return_copies (c : cref) w :
  (defaultsProps (chars w !!! c) < length (tables w))%nat →
  (currentCharMap < length (charMaps w))%nat →
  ∃ l m w1,
    (l ← GetDefaultsProps c; m ← GetCharacterMap; mret (l, m)) w = (w1, Ok (l, m))
    ∧ tables w1 !!! l = baseline w c
    ∧ charMaps w1 !!! m = charMaps w !!! currentCharMap
    ∧ ∀ muts,
        (forEach (mutate l m) muts w1).2 = Ok tt
        ∧ chars (forEach (mutate l m) muts w1).1 = chars w
        ∧ baseline (forEach (mutate l m) muts w1).1 c = baseline w c
        ∧ charMaps (forEach (mutate l m) muts w1).1 !!! currentCharMap
          = charMaps w !!! currentCharMap.
Proof.
  intros Hl Hm.
  exists (length (tables w)), (length (charMaps w)). eexists.
  split; [reflexivity|].
  cbn [fst snd tables charMaps chars set_tables set_charMaps].
  split; [by apply list_lookup_total_middle|].
  split; [by apply list_lookup_total_middle|].
  intros muts.
  pose proof (keeps_forEach (untouched_except (length (tables w)) (length (charMaps w)))
                (mutate (length (tables w)) (length (charMaps w))) muts
                (keeps_untouched_except_mutate _ _)) as Hkeep.
  pose proof (succeeds_forEach (mutate (length (tables w)) (length (charMaps w))) muts
                (succeeds_mutate _ _)) as Hok.
  set (w1 := set_charMaps _ _) in *.
  destruct (Hkeep w1) as (H1 & H2 & H3 & H4 & H5).
  destruct (Hok w1) as [[] ->]. split; [done|].
  split; [by rewrite H1|]. unfold baseline. rewrite H1. split.
  - rewrite H4 by (cbn; lia). subst w1. cbn. by rewrite lookup_total_app_l.
  - rewrite H5 by (unfold currentCharMap in *; lia). subst w1. cbn.
    by rewrite lookup_total_app_l.
Qed.

Lemma accessors_return_copies_witness :
  (defaultsProps (chars attachedWorld !!! 0%nat) < length (tables attachedWorld))%nat
  ∧ (currentCharMap < length (charMaps attachedWorld))%nat
  ∧ ∃ l m w1,
      (l ← GetDefaultsProps 0%nat; m ← GetCharacterMap; mret (l, m)) attachedWorld
      = (w1, Ok (l, m))
      ∧ tables w1 !!! l = baseline attachedWorld 0
      ∧ charMaps w1 !!! m = charMaps attachedWorld !!! currentCharMap
      ∧ ∀ muts,
          (forEach (mutate l m) muts w1).2 = Ok tt
          ∧ chars (forEach (mutate l m) muts w1).1 = chars attachedWorld
          ∧ baseline (forEach (mutate l m) muts w1).1 0 = baseline attachedWorld 0
          ∧ charMaps (forEach (mutate l m) muts w1).1 !!! currentCharMap
            = charMaps attachedWorld !!! currentCharMap.
Proof.
  split; [vm_compute; lia|]. split; [vm_compute; lia|].
  apply (accessors_return_copies 0%nat attachedWorld); vm_compute; lia.
Defined.

(** The writes of [someWrites] do reach the copies. *)
Lemma someWrites_reach_the_copies :
  let w1 := ((l ← GetDefaultsProps 0%nat; m ← GetCharacterMap; mret (l, m)) attachedWorld).1 in
  let w2 := (forEach (mutate 1%nat 1%nat) someWrites w1).1 in
  WalkSpeed (tables w2 !!! 1%nat) = 99%Q
  ∧ AutoRotate (tables w2 !!! 1%nat) = false
  ∧ charMaps w2 !!! 1%nat = (∅ : gmap positive nat)
  ∧ WalkSpeed (baseline w2 0) = 16%Q
  ∧ (charMaps w2 !!! currentCharMap) !! 1%positive = Some 0%nat.
Proof. repeat split. Qed.

(** ** Sharing of the baseline table *)

Lemma packStatusEffects_run m acc w :
  ∃ packed, packStatusEffects m acc w = (w, Ok packed).
Proof.
  revert acc. induction m as [|[Id Status] m IH]; intros acc; cbn [packStatusEffects].
  - by eexists.
  - unfold Status_packData, getStatus, mbind, Eff_bind, mret, Eff_ret.
    apply IH.
Qed.

(** C10.  [_packData] returns the very reference of the baseline table, and
    [SetDefaultProps] keeps the very reference it is given: a write to the
    [defaultProps] of a packed snapshot, or to the table that was passed to
    [SetDefaultProps], shows in the baseline of the character.  A write to the
    table that [GetDefaultsProps] returned does not. *)
Theorem packData_shares_baseline env (c : cref) (mut : PropsMutation) w :
  (c < length (chars w))%nat →
  (defaultsProps (chars w !!! c) < length (tables w))%nat →
  (∃ d, _packData c w = (w, Ok d)
        ∧ cd_defaultProps d = defaultsProps (chars w !!! c)
        ∧ baseline (writeTable (cd_defaultProps d) mut w).1 c
          = mutateProps mut (baseline w c))
  ∧ (∀ Props, (Props < length (tables w))%nat →
       baseline ((SetDefaultProps env c Props ;; writeTable Props mut) w).1 c
       = mutateProps mut (tables w !!! Props))
  ∧ baseline ((l ← GetDefaultsProps c; writeTable l mut) w).1 c = baseline w c.
Proof.
  intros Hc Hl. split; [|split].
  - unfold _packData, getChar, mbind, Eff_bind, mret, Eff_ret.
    destruct (packStatusEffects_run (statusEffects (chars w !!! c)) [] w)
      as [packed ->].
    eexists. split; [reflexivity|]. split; [reflexivity|].
    unfold baseline. cbn. by rewrite list_lookup_total_insert_eq.
  - intros Props HP. unfold mbind, Eff_bind. rewrite SetDefaultProps_run.
    unfold baseline. cbn. rewrite list_lookup_total_insert_eq by done. cbn.
    by rewrite list_lookup_total_insert_eq.
  - unfold GetDefaultsProps, table_clone, getChar, writeTable, modify, mbind,
      Eff_bind, baseline.
    cbn [fst snd tables chars set_tables].
    rewrite list_lookup_total_insert_ne by lia.
    by rewrite lookup_total_app_l.
Qed.

Lemma packData_shares_baseline_witness :
  (0 < length (chars attachedWorld))%nat
  ∧ (defaultsProps (chars attachedWorld !!! 0%nat) < length (tables attachedWorld))%nat
  ∧ WalkSpeed (baseline attachedWorld 0) = 16%Q
  ∧ (∃ d, _packData 0%nat attachedWorld = (attachedWorld, Ok d)
          ∧ cd_defaultProps d = defaultsProps (chars attachedWorld !!! 0%nat)
          ∧ baseline (writeTable (cd_defaultProps d) (WriteWalkSpeed 99) attachedWorld).1 0
            = mutateProps (WriteWalkSpeed 99) (baseline attachedWorld 0))
  ∧ (∀ Props, (Props < length (tables attachedWorld))%nat →
       baseline ((SetDefaultProps serverEnv 0%nat Props ;;
                  writeTable Props (WriteWalkSpeed 99)) attachedWorld).1 0
       = mutateProps (WriteWalkSpeed 99) (tables attachedWorld !!! Props))
  ∧ baseline ((l ← GetDefaultsProps 0%nat; writeTable l (WriteWalkSpeed 99))
                attachedWorld).1 0
    = baseline attachedWorld 0.
Proof.
  split; [vm_compute; lia|]. split; [vm_compute; lia|]. split; [reflexivity|].
  apply (packData_shares_baseline serverEnv 0%nat (WriteWalkSpeed 99) attachedWorld);
    vm_compute; lia.
Defined.

Lemma onCharacterData_reconciles_witness :
  (0 < length (chars staleWorld))%nat
  ∧ NoDup (cd_statusEffects snapshotX).*1
  ∧ NoDup (smap staleWorld 0).*1
  ∧ smap staleWorld 0 = [("old", 0%nat)]
  ∧ ∃ w',
      onCharacterData clientEnv 0%nat (Some snapshotX) staleWorld = (w', Ok tt)
      ∧ length (effects w') = 2%nat
      ∧ omap_get "x" (smap w' 0) = Some 1%nat
      ∧ se_id (effects w' !!! 1%nat) = "x"
      ∧ se_className (effects w' !!! 1%nat) = "Slow"
      ∧ se_destroyed (effects w' !!! 0%nat) = true.
Proof.
  assert (NoDup ["x"]) as Hx by (apply NoDup_singleton).
  assert (NoDup ["old"]) as Hold by (apply NoDup_singleton).
  split; [vm_compute; lia|]. split; [exact Hx|]. split; [exact Hold|].
  split; [reflexivity|].
  destruct (onCharacterData_reconciles clientEnv 0%nat snapshotX staleWorld)
    as (w' & Hrun & Hlen & Hnew & Hstale & _).
  - vm_compute; lia.
  - exact Hx.
  - exact Hold.
  - intros k e Hin. vm_compute in Hin.
    apply list_elem_of_singleton in Hin. simplify_eq. split; [reflexivity|].
    vm_compute; lia.
  - intros Id Data Hin _. vm_compute in Hin.
    apply list_elem_of_singleton in Hin. simplify_eq. by eexists.
  - exists w'. split; [exact Hrun|]. split; [exact Hlen|].
    destruct (Hnew 0%nat "x" (mkStatusData "Slow") eq_refl) as (H1 & H2 & H3).
    split; [exact H1|]. split; [exact H2|]. split; [exact H3|].
    by apply (Hstale "old").
Defined.

(** The two cycles of the example: the snapshot [{"x": data}] against an
    empty local map creates one effect, with the id ["x"]; the empty snapshot
    that follows destroys it. *)
Lemma reconcile_x_then_empty :
  let w1 := (onCharacterData clientEnv 0%nat (Some snapshotX) observerWorld).1 in
  let w2 := (onCharacterData clientEnv 0%nat (Some snapshotEmpty) w1).1 in
  smap observerWorld 0 = []
  ∧ effects observerWorld = []
  ∧ smap w1 0 = [("x", 0%nat)]
  ∧ length (effects w1) = 1%nat
  ∧ se_id (effects w1 !!! 0%nat) = "x"
  ∧ se_destroyed (effects w1 !!! 0%nat) = false
  ∧ (onCharacterData clientEnv 0%nat (Some snapshotEmpty) w1).2 = Ok tt
  ∧ length (effects w2) = 1%nat
  ∧ se_destroyed (effects w2 !!! 0%nat) = true
  ∧ smap w2 0 = [].
Proof. repeat split. Qed.

(** C5 as stated fails on a snapshot whose class name the registry lacks: the
    id ["y"] is in the snapshot and not in the local map, the cycle raises at
    line 177, no effect is constructed and none is inserted. *)
Lemma reconcile_unregistered_constructs_nothing :
  omap_has "y" (cd_statusEffects snapshotUnknown) = true
  ∧ omap_get "y" (smap observerWorld 0) = None
  ∧ (onCharacterData clientEnv 0%nat (Some snapshotUnknown) observerWorld).2
    = Raise "Replication Error: Could not find a registered StatusEffect"
  ∧ effects (onCharacterData clientEnv 0%nat (Some snapshotUnknown) observerWorld).1 = []
  ∧ omap_get "y"
      (smap (onCharacterData clientEnv 0%nat (Some snapshotUnknown) observerWorld).1 0)
    = None.
Proof. repeat split. Qed.

(** * Further properties *)

(** ** The merge loop (lines 96-118) *)

Lemma gt_false_of_gt a b : gt a b = true → gt b a = false.
Proof.
  unfold gt. intros H. apply negb_true_iff in H. apply negb_false_iff.
  apply Qle_bool_iff. apply Qlt_le_weak, Qnot_le_lt. intros Hle.
  apply Qle_bool_iff in Hle. congruence.
Qed.

(** X1. Of two Set effects, the one of higher (non-zero) priority decides
    every property that it overrides, whichever comes first in the
    iteration; the threshold ends at its priority. *)
Theorem mergeLoop_higher_set_decides defaults hdA hdB :
  mode hdA = SetMode → mode hdB = SetMode →
  gt (Priority hdB) (Priority hdA) = true →
  truthy (Priority hdB) = true →
  ∀ order, order = [Some hdA; Some hdB] ∨ order = [Some hdB; Some hdA] →
    previousSetMPriority (mergeLoop defaults order) = Some (Priority hdB)
    ∧ (∀ v, pWalkSpeed (Props hdB) = Some v →
         WalkSpeed (propsToApply (mergeLoop defaults order)) = v)
    ∧ (∀ v, pJumpPower (Props hdB) = Some v →
         JumpPower (propsToApply (mergeLoop defaults order)) = v)
    ∧ (∀ v, pAutoRotate (Props hdB) = Some v →
         AutoRotate (propsToApply (mergeLoop defaults order)) = v)
    ∧ (∀ v, pJumpHeight (Props hdB) = Some v →
         JumpHeight (propsToApply (mergeLoop defaults order)) = v).
Proof.
  intros HA HB Hgt Hnz order [-> | ->]; unfold mergeLoop; cbn [foldl].
  - rewrite (mergeStep_first_set _ hdA) by done.
    assert (mergeStep (applySet hdA (mergeInit defaults)) (Some hdB)
            = applySet hdB (applySet hdA (mergeInit defaults))) as ->.
    { unfold mergeStep, setApplies. rewrite HB. cbn. rewrite Hgt.
      by rewrite orb_true_r. }
    cbn. repeat split; by intros v ->.
  - rewrite (mergeStep_first_set _ hdB) by done.
    rewrite (mergeStep_set_threshold _ hdA (Priority hdB)) by done.
    rewrite (gt_false_of_gt _ _ Hgt).
    cbn. repeat split; by intros v ->.
Qed.

Lemma mergeLoop_higher_set_decides_witness :
  WalkSpeed (propsToApply
    (mergeLoop initialDefaults [se_humanoidData setB; se_humanoidData setA])) = 20%Q.
Proof.
  refine (proj1 (proj2 (mergeLoop_higher_set_decides initialDefaults
    (mkHumanoidData (mkPartial (Some 10%Q) None None None) SetMode 1)
    (mkHumanoidData (mkPartial (Some 20%Q) None None None) SetMode 5)
    eq_refl eq_refl eq_refl eq_refl _ (or_intror eq_refl))) 20%Q eq_refl).
Defined.

(** A run of Increment effects leaves the threshold unset. *)
Lemma foldl_increments_threshold st hds :
  previousSetMPriority st = None →
  Forall (λ hd, mode hd = Increment) hds →
  previousSetMPriority (foldl mergeStep st (Some <$> hds)) = None.
Proof.
  intros Hst Hall. revert st Hst.
  induction Hall as [|hd hds Hm _ IH]; intros st Hst; [done|].
  cbn. apply IH. unfold mergeStep. rewrite Hm, Hst. done.
Qed.

Lemma Qsum_nil (a : Q) : (a == a + 0)%Q.
Proof. ring. Qed.

Lemma Qsum_cons (a v t r : Q) : (r == (v + a) + t → r == a + (v + t))%Q.
Proof. intros ->. ring. Qed.

Lemma Qsum_skip (a t r : Q) : (r == a + t → r == a + (0 + t))%Q.
Proof. intros ->. ring. Qed.

Lemma foldl_increments_sum st hds :
  previousSetMPriority st = None →
  Forall (λ hd, mode hd = Increment) hds →
  (WalkSpeed (propsToApply (foldl mergeStep st (Some <$> hds)))
     == WalkSpeed (propsToApply st) + total pWalkSpeed hds)%Q
  ∧ (JumpPower (propsToApply (foldl mergeStep st (Some <$> hds)))
     == JumpPower (propsToApply st) + total pJumpPower hds)%Q
  ∧ (JumpHeight (propsToApply (foldl mergeStep st (Some <$> hds)))
     == JumpHeight (propsToApply st) + total pJumpHeight hds)%Q.
Proof.
  intros Hst Hall. revert st Hst.
  induction Hall as [|hd hds Hm _ IH]; intros st Hst.
  - cbn. repeat split; apply Qsum_nil.
  - cbn [fmap list_fmap foldl total foldr].
    assert (mergeStep st (Some hd) = applyIncrement hd st) as ->.
    { unfold mergeStep. by rewrite Hm, Hst. }
    destruct (IH (applyIncrement hd st) Hst) as (H1 & H2 & H3).
    fold (total pWalkSpeed hds) (total pJumpPower hds) (total pJumpHeight hds).
    clear IH. cbn in H1, H2, H3. unfold addNumber in H1, H2, H3.
    destruct (pWalkSpeed (Props hd)), (pJumpPower (Props hd)),
      (pJumpHeight (Props hd)); cbn [default];
      (split; [|split]); first [by apply Qsum_cons | by apply Qsum_skip].
Qed.

(** Where the sums of a property are exact, its value after the loop is a
    safe integer. *)
Lemma foldl_increments_exact st hds :
  previousSetMPriority st = None →
  Forall (λ hd, mode hd = Increment) hds →
  (exact_sums (WalkSpeed (propsToApply st)) (overrides pWalkSpeed hds) = true →
     safe_integer (WalkSpeed (propsToApply (foldl mergeStep st (Some <$> hds)))) = true)
  ∧ (exact_sums (JumpPower (propsToApply st)) (overrides pJumpPower hds) = true →
       safe_integer (JumpPower (propsToApply (foldl mergeStep st (Some <$> hds)))) = true)
  ∧ (exact_sums (JumpHeight (propsToApply st)) (overrides pJumpHeight hds) = true →
       safe_integer (JumpHeight (propsToApply (foldl mergeStep st (Some <$> hds)))) = true).
Proof.
  intros Hst Hall. revert st Hst.
  induction Hall as [|hd hds Hm _ IH]; intros st Hst.
  - cbn. rewrite !andb_true_r. done.
  - cbn [fmap list_fmap foldl].
    assert (mergeStep st (Some hd) = applyIncrement hd st) as ->.
    { unfold mergeStep. by rewrite Hm, Hst. }
    destruct (IH (applyIncrement hd st) Hst) as (H1 & H2 & H3). clear IH.
    cbn [applyIncrement propsToApply WalkSpeed JumpPower JumpHeight] in H1, H2, H3.
    unfold overrides in *. cbn [omap list_omap].
    split; [|split].
    + destruct (pWalkSpeed (Props hd)); cbn [addNumber] in H1; [|exact H1].
      cbn [exact_sums]. intros H. apply H1.
      by apply andb_true_iff in H as [_ [_ H]%andb_true_iff].
    + destruct (pJumpPower (Props hd)); cbn [addNumber] in H2; [|exact H2].
      cbn [exact_sums]. intros H. apply H2.
      by apply andb_true_iff in H as [_ [_ H]%andb_true_iff].
    + destruct (pJumpHeight (Props hd)); cbn [addNumber] in H3; [|exact H3].
      cbn [exact_sums]. intros H. apply H3.
      by apply andb_true_iff in H as [_ [_ H]%andb_true_iff].
Qed.

(** X2. With no Set effect among them, the numeric overrides of Increment
    effects add up on the baseline, for each of the three numeric properties
    whose baseline value and overrides are integers and whose sums, in the
    order of the loop, stay within 2^53 in magnitude: on such values the
    additions of line 106 do not round, and the result is again such an
    integer. *)
Theorem mergeLoop_increments_add_up defaults hds :
  Forall (λ hd, mode hd = Increment) hds →
  (exact_sums (WalkSpeed defaults) (overrides pWalkSpeed hds) = true →
     (WalkSpeed (propsToApply (mergeLoop defaults (Some <$> hds)))
        == WalkSpeed defaults + total pWalkSpeed hds)%Q
     ∧ safe_integer (WalkSpeed (propsToApply (mergeLoop defaults (Some <$> hds))))
       = true)
  ∧ (exact_sums (JumpPower defaults) (overrides pJumpPower hds) = true →
       (JumpPower (propsToApply (mergeLoop defaults (Some <$> hds)))
          == JumpPower defaults + total pJumpPower hds)%Q
       ∧ safe_integer (JumpPower (propsToApply (mergeLoop defaults (Some <$> hds))))
         = true)
  ∧ (exact_sums (JumpHeight defaults) (overrides pJumpHeight hds) = true →
       (JumpHeight (propsToApply (mergeLoop defaults (Some <$> hds)))
          == JumpHeight defaults + total pJumpHeight hds)%Q
       ∧ safe_integer (JumpHeight (propsToApply (mergeLoop defaults (Some <$> hds))))
         = true).
Proof.
  intros Hall.
  destruct (foldl_increments_sum (mergeInit defaults) hds eq_refl Hall)
    as (H1 & H2 & H3).
  destruct (foldl_increments_exact (mergeInit defaults) hds eq_refl Hall)
    as (E1 & E2 & E3).
  split; [|split]; intros Hex; (split; [done|]); [apply E1 | apply E2 | apply E3];
    exact Hex.
Qed.

Lemma mergeLoop_increments_add_up_witness :
  exact_sums (WalkSpeed initialDefaults)
    (overrides pWalkSpeed
       [mkHumanoidData (mkPartial (Some 5%Q) None None None) Increment 1;
        mkHumanoidData (mkPartial (Some 3%Q) None None None) Increment 2]) = true
  ∧ (WalkSpeed (propsToApply
       (mergeLoop initialDefaults [se_humanoidData incA; se_humanoidData incB]))
     == 16 + (5 + (3 + 0)))%Q.
Proof.
  split; [reflexivity|].
  refine (proj1 (proj1 (mergeLoop_increments_add_up initialDefaults
    [mkHumanoidData (mkPartial (Some 5%Q) None None None) Increment 1;
     mkHumanoidData (mkPartial (Some 3%Q) None None None) Increment 2] _) eq_refl)).
  repeat constructor.
Defined.

(** X3. Once a Set effect of non-zero priority [p] has applied, the loop
    skips every Increment effect and every Set effect whose priority is not
    above [p]: a run of such effects changes neither the properties nor the
    threshold. *)
Theorem mergeLoop_after_set_skips st p hds :
  previousSetMPriority st = Some p →
  truthy p = true →
  Forall (λ hd, mode hd = Increment ∨ gt (Priority hd) p = false) hds →
  foldl mergeStep st (Some <$> hds) = st.
Proof.
  intros Hst Hp Hall. induction Hall as [|hd hds Hhd _ IH]; [done|].
  cbn [fmap list_fmap foldl].
  assert (mergeStep st (Some hd) = st) as ->; [|exact IH].
  unfold mergeStep, setApplies, notPrevious. rewrite Hst, Hp. cbn.
  destruct (mode hd) eqn:E; [done|].
  destruct Hhd as [Hinc | ->]; [congruence | done].
Qed.

Lemma mergeLoop_after_set_skips_witness :
  foldl mergeStep (applySet (mkHumanoidData (mkPartial (Some 10%Q) None None None) SetMode 3)
                     (mergeInit initialDefaults))
    (Some <$> [mkHumanoidData (mkPartial (Some 5%Q) None None None) Increment 10;
               mkHumanoidData (mkPartial (Some 30%Q) None None None) SetMode 2])
  = applySet (mkHumanoidData (mkPartial (Some 10%Q) None None None) SetMode 3)
      (mergeInit initialDefaults).
Proof.
  apply (mergeLoop_after_set_skips _ 3%Q); [reflexivity | reflexivity |].
  constructor; [by left|]. constructor; [by right|]. constructor.
Defined.

(** X4. The boolean override of an Increment effect applies only above the
    priority recorded for the property, which starts at 0: in a run of
    Increment effects whose priorities are not above 0, no boolean override
    applies and [AutoRotate] keeps its baseline value. *)
Theorem mergeLoop_boolean_needs_positive_priority defaults hds :
  Forall (λ hd, mode hd = Increment ∧ gt (Priority hd) 0 = false) hds →
  AutoRotate (propsToApply (mergeLoop defaults (Some <$> hds))) = AutoRotate defaults.
Proof.
  intros Hall. unfold mergeLoop.
  assert (∀ st, previousSetMPriority st = None →
            incAutoRotate (incPriorityList st) = 0%Q →
            AutoRotate (propsToApply (foldl mergeStep st (Some <$> hds)))
            = AutoRotate (propsToApply st)) as Hgen; [|by apply Hgen].
  induction Hall as [|hd hds [Hm Hp] _ IH]; intros st Hst Hinc; [done|].
  cbn [fmap list_fmap foldl].
  assert (mergeStep st (Some hd) = applyIncrement hd st) as ->.
  { unfold mergeStep. by rewrite Hm, Hst. }
  rewrite IH.
  - unfold applyIncrement. cbn. rewrite Hinc, Hp. by destruct (pAutoRotate _).
  - done.
  - unfold applyIncrement. cbn. rewrite Hinc, Hp. by destruct (pAutoRotate _).
Qed.

Lemma mergeLoop_boolean_needs_positive_priority_witness :
  AutoRotate (propsToApply (mergeLoop initialDefaults
    (Some <$> [mkHumanoidData (mkPartial None None (Some false) None) Increment 0])))
  = true.
Proof.
  apply (mergeLoop_boolean_needs_positive_priority initialDefaults
    [mkHumanoidData (mkPartial None None (Some false) None) Increment 0]).
  repeat constructor.
Defined.

(** X5. Of two Increment effects that override [AutoRotate], the one of
    higher priority decides, whichever comes first, provided the lower
    priority is above 0. *)
Theorem mergeLoop_boolean_higher_priority_decides defaults hdA hdB a b :
  mode hdA = Increment → mode hdB = Increment →
  pAutoRotate (Props hdA) = Some a → pAutoRotate (Props hdB) = Some b →
  gt (Priority hdA) 0 = true →
  gt (Priority hdB) (Priority hdA) = true →
  AutoRotate (propsToApply (mergeLoop defaults [Some hdA; Some hdB])) = b
  ∧ AutoRotate (propsToApply (mergeLoop defaults [Some hdB; Some hdA])) = b.
Proof.
  intros HA HB Ha Hb HposA Hgt.
  assert (gt (Priority hdB) 0 = true) as HposB.
  { unfold gt in *. apply negb_true_iff. apply negb_true_iff in HposA, Hgt.
    destruct (Qle_bool (Priority hdB) 0) eqn:E; [|done]. exfalso.
    apply Qle_bool_iff in E.
    assert (Qle_bool (Priority hdB) (Priority hdA) = true); [|congruence].
    apply Qle_bool_iff. eapply Qle_trans; [exact E|].
    apply Qlt_le_weak, Qnot_le_lt. intros Hle. apply Qle_bool_iff in Hle. congruence. }
  assert (∀ hd st v, mode hd = Increment → previousSetMPriority st = None →
            pAutoRotate (Props hd) = Some v →
            mergeStep st (Some hd) = applyIncrement hd st
            ∧ previousSetMPriority (applyIncrement hd st) = None
            ∧ AutoRotate (propsToApply (applyIncrement hd st))
              = (if gt (Priority hd) (incAutoRotate (incPriorityList st))
                 then v else AutoRotate (propsToApply st))
            ∧ incAutoRotate (incPriorityList (applyIncrement hd st))
              = (if gt (Priority hd) (incAutoRotate (incPriorityList st))
                 then Priority hd else incAutoRotate (incPriorityList st))) as Hstep.
  { intros hd st v Hm Hst Hv. unfold mergeStep, applyIncrement.
    rewrite Hm, Hst, Hv. cbn [notPrevious].
    destruct (gt (Priority hd) (incAutoRotate (incPriorityList st))); by cbn. }
  unfold mergeLoop. cbn [foldl]. split.
  - destruct (Hstep hdA (mergeInit defaults) a HA eq_refl Ha) as (-> & H1 & _ & H3).
    destruct (Hstep hdB _ b HB H1 Hb) as (-> & _ & -> & _).
    rewrite H3. cbn. by rewrite HposA, Hgt.
  - destruct (Hstep hdB (mergeInit defaults) b HB eq_refl Hb) as (-> & H1 & H2 & H3).
    destruct (Hstep hdA _ a HA H1 Ha) as (-> & _ & -> & _).
    rewrite H3, H2. cbn. by rewrite HposB, (gt_false_of_gt _ _ Hgt).
Qed.

Lemma mergeLoop_boolean_higher_priority_decides_witness :
  AutoRotate (propsToApply (mergeLoop initialDefaults
    [Some (mkHumanoidData (mkPartial None None (Some true) None) Increment 1);
     Some (mkHumanoidData (mkPartial None None (Some false) None) Increment 2)])) = false
  ∧ AutoRotate (propsToApply (mergeLoop initialDefaults
    [Some (mkHumanoidData (mkPartial None None (Some false) None) Increment 2);
     Some (mkHumanoidData (mkPartial None None (Some true) None) Increment 1)])) = false.
Proof.
  apply (mergeLoop_boolean_higher_priority_decides initialDefaults
    (mkHumanoidData (mkPartial None None (Some true) None) Increment 1)
    (mkHumanoidData (mkPartial None None (Some false) None) Increment 2) true false);
    reflexivity.
Defined.

(** ** The recomputation pass (lines 83-123) *)

(** X6. Running the pass a second time changes nothing. *)
Theorem updateHumanoidProps_idempotent c w :
  updateHumanoidProps c (updateHumanoidProps c w).1 = updateHumanoidProps c w.
Proof.
  rewrite !updateHumanoidProps_run. cbn [fst].
  assert (recompute c (set_humanoids (λ _, recompute c w) w) = recompute c w) as ->;
    [|done].
  unfold recompute at 1. unfold collected, baseline, smap.
  cbn [chars effects tables humanoids set_humanoids].
  fold (smap w c) (collected w c) (baseline w c).
  unfold recompute. destruct (collected w c) as [|s l]; [done|].
  by rewrite list_insert_insert_eq.
Qed.

(** X7. The pass returns for every world and writes one thing only, the four
    properties of the humanoid of the character. What it writes is the
    baseline as it stands, and it writes exactly when some attached effect
    exposes no humanoid data: the data of the effects never reaches the
    humanoid. *)
Theorem updateHumanoidProps_outcome c w :
  (updateHumanoidProps c w).2 = Ok tt
  ∧ (updateHumanoidProps c w).1
    = set_humanoids (λ _, humanoids (updateHumanoidProps c w).1) w
  ∧ length (humanoids (updateHumanoidProps c w).1) = length (humanoids w)
  ∧ (∀ h, h ≠ Humanoid (chars w !!! c) →
       humanoids (updateHumanoidProps c w).1 !!! h = humanoids w !!! h)
  ∧ live (updateHumanoidProps c w).1 c
    = (if existsb (λ entry, isNil (se_humanoidData (effects w !!! entry.2))) (smap w c)
       then (if decide (Humanoid (chars w !!! c) < length (humanoids w))%nat
             then baseline w c else live w c)
       else live w c).
Proof.
  rewrite updateHumanoidProps_run, recompute_baseline.
  unfold live. cbn [fst snd humanoids chars set_humanoids].
  assert (existsb (λ entry, isNil (se_humanoidData (effects w !!! entry.2))) (smap w c)
          = match collected w c with [] => false | _ :: _ => true end) as ->.
  { unfold collected. induction (smap w c) as [|[k e] m IH]; [done|].
    cbn. destruct (isNil _); [done | exact IH]. }
  split; [done|]. split; [done|].
  destruct (collected w c) as [|s l].
  - split; [done|]. split; done.
  - split; [by rewrite length_insert|]. split.
    + intros h Hh. by rewrite list_lookup_total_insert_ne.
    + case_decide as Hlt.
      * by rewrite list_lookup_total_insert_eq.
      * by rewrite list_insert_ge by lia.
Qed.

(** ** Attachment (lines 140-155) *)

Section OrderedMapMoreFacts.
Context {V : Type}.
Implicit Types (m : list (string * V)) (k : string) (v : V).

Lemma omap_set_present k v m :
  omap_get k m ≠ None → (omap_set k v m).*1 = m.*1.
Proof.
  induction m as [|[k0 v0] m IH]; cbn; [done|].
  destruct (String.eqb k k0) eqn:E; cbn.
  - apply String.eqb_eq in E as ->. done.
  - intros H. by rewrite IH.
Qed.

Lemma NoDup_omap_set k v m : NoDup m.*1 → NoDup (omap_set k v m).*1.
Proof.
  intros Hnd. destruct (omap_get k m) eqn:E.
  - rewrite omap_set_present; [done | congruence].
  - rewrite omap_set_absent, fmap_app by done. cbn.
    apply NoDup_app. split; [done|]. split; [|apply NoDup_singleton].
    intros x Hx ->%list_elem_of_singleton. by apply omap_get_None in E.
Qed.

Lemma elem_of_omap_set k v k' v' m :
  (k', v') ∈ omap_set k v m → (k', v') = (k, v) ∨ (k', v') ∈ m.
Proof.
  induction m as [|[k0 v0] m IH]; cbn.
  - intros ?%list_elem_of_singleton. by left.
  - destruct (String.eqb k k0).
    + intros [->|H]%elem_of_cons; [by left | right; by right].
    + intros [->|H]%elem_of_cons; [right; by left|].
      destruct (IH H) as [->|H']; [by left | right; by right].
Qed.

Lemma omap_delete_absent k m : omap_get k m = None → omap_delete k m = m.
Proof.
  induction m as [|[k0 v0] m IH]; cbn; [done|].
  destruct (String.eqb k k0); [done|]. intros H. by rewrite IH.
Qed.

Lemma omap_delete_set_absent k v m :
  omap_get k m = None → omap_delete k (omap_set k v m) = m.
Proof.
  intros H. rewrite omap_set_absent by done.
  induction m as [|[k0 v0] m IH]; cbn in *.
  - by rewrite String.eqb_refl.
  - destruct (String.eqb k k0); [done|]. by rewrite IH.
Qed.

Lemma omap_delete_sublist k m : omap_delete k m `sublist_of` m.
Proof.
  induction m as [|[k0 v0] m IH]; cbn; [done|].
  destruct (String.eqb k k0); [by apply sublist_cons | by apply sublist_skip].
Qed.
End OrderedMapMoreFacts.

(** X8. After [_addStatus] the map of the character finds the effect under
    its id and every other id as before; the map grows by one entry when the
    id was absent and keeps its size when the id was present (the entry is
    replaced in place). The added notification is sent, the character holds
    the new connection in its janitor and the effect holds the handler. *)
Theorem addStatus_registers (c : cref) (Status : eref) w :
  (c < length (chars w))%nat →
  (Status < length (effects w))%nat →
  let id := se_id (effects w !!! Status) in
  let w' := (_addStatus c Status w).1 in
  (_addStatus c Status w).2 = Ok tt
  ∧ omap_get id (smap w' c) = Some Status
  ∧ (∀ k, k ≠ id → omap_get k (smap w' c) = omap_get k (smap w c))
  ∧ length (smap w' c)
    = (if isNil (omap_get id (smap w c)) then S (length (smap w c))
       else length (smap w c))
  ∧ signals w' = signals w ++ [StatusEffectAdded c Status]
  ∧ janitor (chars w' !!! c)
    = janitor (chars w !!! c)
      ++ [JConnection Status (length (HumanoidDataChanged (effects w !!! Status)))]
  ∧ Destroyed (effects w' !!! Status)
    = Destroyed (effects w !!! Status)
      ++ [mkOnce c (length (HumanoidDataChanged (effects w !!! Status)))]
  ∧ tables w' = tables w ∧ charMaps w' = charMaps w ∧ producer w' = producer w.
Proof.
  intros Hc Hs id w'. subst w'.
  destruct (_addStatus_run c Status w) as (g & hs & Hg & ->).
  destruct (Hg (effects w !!! Status)) as (_ & _ & _ & _ & HD & _).
  unfold smap. cbn [fst snd chars effects signals tables charMaps producer].
  rewrite !list_lookup_total_insert_eq by done.
  cbn [statusEffects janitor set_janitor set_statusEffects].
  fold (smap w c). fold id.
  split; [done|]. split; [by rewrite omap_get_set, String.eqb_refl|].
  split.
  { intros k Hk. rewrite omap_get_set.
    by apply String.eqb_neq in Hk as ->. }
  split.
  { destruct (omap_get id (smap w c)) eqn:E; cbn.
    - rewrite <- (length_fmap fst (omap_set _ _ _)), omap_set_present, length_fmap;
        [done | congruence].
    - rewrite omap_set_absent, length_app by done. cbn. lia. }
  done.
Qed.

Lemma addStatus_registers_witness :
  (0 < length (chars freshWorld))%nat
  ∧ (0 < length (effects freshWorld))%nat
  ∧ smap freshWorld 0 = []
  ∧ omap_get "f" (smap (_addStatus 0%nat 0%nat freshWorld).1 0) = Some 0%nat
  ∧ length (smap (_addStatus 0%nat 0%nat freshWorld).1 0) = 1%nat.
Proof.
  assert (0 < length (chars freshWorld))%nat as Hc by (vm_compute; lia).
  assert (0 < length (effects freshWorld))%nat as Hs by (vm_compute; lia).
  destruct (addStatus_registers 0%nat 0%nat freshWorld Hc Hs)
    as (_ & Hget & _ & Hlen & _).
  split; [exact Hc|]. split; [exact Hs|]. split; [reflexivity|].
  split; [exact Hget | exact Hlen].
Defined.

(** X9. [_addStatus] keeps the effect map well formed. *)
Theorem addStatus_keeps_wf (c : cref) (Status : eref) w :
  (c < length (chars w))%nat →
  (Status < length (effects w))%nat →
  wf_map w c →
  wf_map (_addStatus c Status w).1 c.
Proof.
  intros Hc Hs [Hnd Hin].
  pose proof (keeps_EffectFrame__addStatus c Status w) as HE.
  unfold wf_map. rewrite (_addStatus_smap c Status w Hc).
  split; [by apply NoDup_omap_set|].
  intros k e [Heq|Hel]%elem_of_omap_set.
  - simplify_eq. by rewrite (fr_id _ _ HE), (fr_effects _ _ HE).
  - rewrite (fr_id _ _ HE), (fr_effects _ _ HE). by apply Hin.
Qed.

Lemma addStatus_keeps_wf_witness :
  (0 < length (chars freshWorld))%nat
  ∧ (0 < length (effects freshWorld))%nat
  ∧ wf_map freshWorld 0
  ∧ wf_map (_addStatus 0%nat 0%nat freshWorld).1 0.
Proof.
  assert (0 < length (chars freshWorld))%nat as Hc by (vm_compute; lia).
  assert (0 < length (effects freshWorld))%nat as Hs by (vm_compute; lia).
  assert (wf_map freshWorld 0) as Hwf.
  { split; [apply NoDup_nil_2|]. intros k e Hin. by apply elem_of_nil in Hin. }
  split; [exact Hc|]. split; [exact Hs|]. split; [exact Hwf|].
  exact (addStatus_keeps_wf 0%nat 0%nat freshWorld Hc Hs Hwf).
Defined.

(** ** Destruction of effects (lines 149-154) *)

Global Instance shrinks_refl : Reflexive shrinks.
Proof. by intros w c. Qed.

Global Instance shrinks_trans : Transitive shrinks.
Proof. intros w1 w2 w3 H12 H23 c. etrans; [apply H23 | apply H12]. Qed.

Lemma keeps_shrinks_modifyChar c f :
  (∀ ch, statusEffects (f ch) `sublist_of` statusEffects ch) →
  keeps shrinks (modifyChar c f).
Proof.
  intros Hf w c'. unfold modifyChar, modify, smap.
  cbn [fst chars set_chars].
  destruct (decide (c = c')) as [<-|Hne];
    [destruct (decide (c < length (chars w))%nat)|].
  - by rewrite list_lookup_total_insert_eq.
  - by rewrite list_insert_ge by lia.
  - by rewrite list_lookup_total_insert_ne.
Qed.

Lemma keeps_shrinks_same_chars {A : Type} (m : Eff A) :
  (∀ w, chars (m w).1 = chars w) → keeps shrinks m.
Proof. intros H w c. unfold smap. by rewrite H. Qed.

Lemma keeps_shrinks_onStatusDestroyed Status h :
  keeps shrinks (onStatusDestroyed Status h).
Proof.
  unfold onStatusDestroyed, GetId, Disconnect.
  apply keeps_bind; [apply _ | by apply keeps_shrinks_same_chars | intros _].
  apply keeps_bind; [apply _ | by apply keeps_shrinks_same_chars | intros id].
  apply keeps_bind; [apply _ | | intros _].
  { apply keeps_shrinks_modifyChar. intros ch. apply omap_delete_sublist. }
  apply keeps_bind; [apply _ | by apply keeps_shrinks_same_chars | intros _].
  apply keeps_shrinks_same_chars. intros w. apply updateHumanoidProps_chars.
Qed.

Lemma keeps_shrinks_Destroy Status : keeps shrinks (StatusEffect_Destroy Status).
Proof.
  unfold StatusEffect_Destroy.
  apply keeps_bind; [apply _ | by apply keeps_shrinks_same_chars | intros s].
  apply keeps_bind; [apply _ | by apply keeps_shrinks_same_chars | intros _].
  apply keeps_bind; [apply _ | by apply keeps_shrinks_same_chars | intros _].
  apply keeps_forEach; [apply _ | apply _ |]. intros h.
  apply keeps_shrinks_onStatusDestroyed.
Qed.

(** A well-formed map stays so when entries leave it and the effects keep
    their ids. *)
Lemma wf_map_shrinks w w' c :
  EffectFrame w w' → shrinks w w' → wf_map w c → wf_map w' c.
Proof.
  intros HE Hsh [Hnd Hin]. split.
  - eapply sublist_NoDup; [exact Hnd|]. by apply fmap_sublist.
  - intros k e Hel. rewrite (fr_id _ _ HE), (fr_effects _ _ HE).
    apply Hin. eapply elem_of_sublist; [exact Hel | apply Hsh].
Qed.

(** X10. Destroying any effect returns, adds no entry to any effect map and
    keeps the order of the entries that stay, changes no id, and keeps the
    map of every character well formed; tables, global map and producer are
    not touched. *)
Theorem effect_destruction_keeps_wf (Status : eref) w :
  (StatusEffect_Destroy Status w).2 = Ok tt
  ∧ (∀ c, smap (StatusEffect_Destroy Status w).1 c `sublist_of` smap w c)
  ∧ (∀ c, wf_map w c → wf_map (StatusEffect_Destroy Status w).1 c)
  ∧ (∀ e, se_id (effects (StatusEffect_Destroy Status w).1 !!! e)
          = se_id (effects w !!! e))
  ∧ tables (StatusEffect_Destroy Status w).1 = tables w
  ∧ charMaps (StatusEffect_Destroy Status w).1 = charMaps w
  ∧ producer (StatusEffect_Destroy Status w).1 = producer w.
Proof.
  pose proof (keeps_shrinks_Destroy Status w) as Hsh.
  pose proof (keeps_EffectFrame_Destroy Status w) as HE.
  pose proof (keeps_CharFrame_Destroy Status w) as HC.
  destruct (succeeds_Destroy Status w) as [[] Hok].
  split; [done|]. split; [exact Hsh|]. split.
  { intros c. by apply wf_map_shrinks. }
  split; [apply (fr_id _ _ HE)|].
  split; [apply (fr_tables _ _ HC)|]. split; [apply (fr_charMaps _ _ HC)|].
  apply (fr_producer _ _ HC).
Qed.

(** X11. Attaching a fresh effect under an id that the map lacks and
    destroying it gives the effect map back as it was. Both notifications
    are sent; the connection is cut, and the janitor of the character keeps
    holding it. *)
Theorem attach_then_destroy (c : cref) (Status : eref) w :
  (c < length (chars w))%nat →
  (Status < length (effects w))%nat →
  Destroyed (effects w !!! Status) = [] →
  omap_get (se_id (effects w !!! Status)) (smap w c) = None →
  let conn := length (HumanoidDataChanged (effects w !!! Status)) in
  let w' := ((_addStatus c Status ;; StatusEffect_Destroy Status) w).1 in
  ((_addStatus c Status ;; StatusEffect_Destroy Status) w).2 = Ok tt
  ∧ smap w' c = smap w c
  ∧ signals w'
    = signals w ++ [StatusEffectAdded c Status; StatusDestroyed Status;
                    StatusEffectRemoved c Status]
  ∧ HumanoidDataChanged (effects w' !!! Status)
    = HumanoidDataChanged (effects w !!! Status) ++ [mkConnection c false]
  ∧ Destroyed (effects w' !!! Status) = []
  ∧ se_destroyed (effects w' !!! Status) = true
  ∧ janitor (chars w' !!! c) = janitor (chars w !!! c) ++ [JConnection Status conn].
Proof.
  intros Hc Hs Hfresh Habs conn w'. subst w'.
  unfold mbind, Eff_bind.
  destruct (_addStatus_run c Status w) as (g & hs & Hg & ->).
  destruct (Hg (effects w !!! Status)) as (Hid & _ & _ & _ & HD & HH).
  set (w1 := mkWorld _ _ _ _ _ _ _).
  assert (effects w1 !!! Status = g (effects w !!! Status)) as Hs1.
  { subst w1. cbn. by rewrite list_lookup_total_insert_eq. }
  rewrite (Destroy_single Status c conn w1) by by rewrite Hs1, HD, Hfresh.
  rewrite updateHumanoidProps_run, Hs1, Hid.
  unfold smap. subst w1.
  cbn [fst snd chars effects signals tables charMaps producer set_humanoids].
  rewrite !list_insert_insert_eq.
  rewrite !list_lookup_total_insert_eq by (rewrite ?length_insert; done).
  cbn [statusEffects janitor set_janitor set_statusEffects HumanoidDataChanged
       Destroyed se_destroyed set_HumanoidDataChanged set_se_destroyed set_Destroyed].
  fold (smap w c).
  split; [done|]. split; [by apply omap_delete_set_absent|].
  split; [by rewrite <- app_assoc|]. split; [|done].
  rewrite HH. subst conn.
  rewrite <- (Nat.add_0_r (length (HumanoidDataChanged (effects w !!! Status)))).
  rewrite alter_app_r. done.
Qed.

Lemma attach_then_destroy_witness :
  (0 < length (chars freshWorld))%nat
  ∧ (0 < length (effects freshWorld))%nat
  ∧ smap ((_addStatus 0%nat 0%nat ;; StatusEffect_Destroy 0%nat) freshWorld).1 0
    = smap freshWorld 0
  ∧ janitor (chars ((_addStatus 0%nat 0%nat ;; StatusEffect_Destroy 0%nat) freshWorld).1
             !!! 0%nat)
    = janitor (chars freshWorld !!! 0%nat) ++ [JConnection 0 0].
Proof.
  assert (0 < length (chars freshWorld))%nat as Hc by (vm_compute; lia).
  assert (0 < length (effects freshWorld))%nat as Hs by (vm_compute; lia).
  destruct (attach_then_destroy 0%nat 0%nat freshWorld Hc Hs eq_refl eq_refl)
    as (_ & Hmap & _ & _ & _ & _ & Hjan).
  split; [exact Hc|]. split; [exact Hs|]. split; [exact Hmap | exact Hjan].
Defined.

(** The state after [_addStatus], field by field. *)
Lemma _addStatus_proj c Status w :
  ∃ g,
    (∀ x, se_id (g x) = se_id x ∧ se_className (g x) = se_className x
          ∧ se_humanoidData (g x) = se_humanoidData x
          ∧ se_destroyed (g x) = se_destroyed x
          ∧ Destroyed (g x)
            = Destroyed x ++ [mkOnce c (length (HumanoidDataChanged x))]
          ∧ HumanoidDataChanged (g x)
            = HumanoidDataChanged x ++ [mkConnection c true])
    ∧ (_addStatus c Status w).2 = Ok tt
    ∧ chars (_addStatus c Status w).1
      = <[c := set_janitor
                 (λ j, j ++ [JConnection Status
                               (length (HumanoidDataChanged (effects w !!! Status)))])
                 (set_statusEffects (omap_set (se_id (effects w !!! Status)) Status)
                    (chars w !!! c))]> (chars w)
    ∧ effects (_addStatus c Status w).1
      = <[Status := g (effects w !!! Status)]> (effects w).
Proof.
  destruct (_addStatus_run c Status w) as (g & hs & Hg & ->). by exists g.
Qed.

(** X12. Two effect objects that carry the same id, attached one after the
    other: the second replaces the first in the map, and both keep their
    handler. The handler deletes by id, so destroying the FIRST effect
    removes the entry of the second, which is neither destroyed nor
    detached. *)
Theorem destroy_replaced_effect_removes_newer (c : cref) (e1 e2 : eref) w :
  (c < length (chars w))%nat →
  (e1 < length (effects w))%nat →
  (e2 < length (effects w))%nat →
  e1 ≠ e2 →
  se_id (effects w !!! e1) = se_id (effects w !!! e2) →
  Destroyed (effects w !!! e1) = [] →
  let id := se_id (effects w !!! e1) in
  let w2 := ((_addStatus c e1 ;; _addStatus c e2) w).1 in
  let w3 := ((_addStatus c e1 ;; _addStatus c e2 ;; StatusEffect_Destroy e1) w).1 in
  omap_get id (smap w2 c) = Some e2
  ∧ ((_addStatus c e1 ;; _addStatus c e2 ;; StatusEffect_Destroy e1) w).2 = Ok tt
  ∧ omap_get id (smap w3 c) = None
  ∧ se_destroyed (effects w3 !!! e1) = true
  ∧ se_destroyed (effects w3 !!! e2) = se_destroyed (effects w !!! e2)
  ∧ Destroyed (effects w3 !!! e2)
    = Destroyed (effects w !!! e2)
      ++ [mkOnce c (length (HumanoidDataChanged (effects w !!! e2)))].
Proof.
  intros Hc H1 H2 Hne Hid Hfresh id w2 w3. subst w2 w3.
  unfold mbind, Eff_bind.
  destruct (_addStatus_proj c e1 w) as (g1 & Hg1 & Hrun1 & Hch1 & Hef1).
  destruct (_addStatus c e1 w) as [w1 r1]. cbn [fst snd] in *. subst r1.
  destruct (_addStatus_proj c e2 w1) as (g2 & Hg2 & Hrun2 & Hch2 & Hef2).
  destruct (_addStatus c e2 w1) as [w2 r2]. cbn [fst snd] in *. subst r2.
  destruct (Hg1 (effects w !!! e1)) as (Hid1 & _ & _ & _ & HD1 & _).
  destruct (Hg2 (effects w !!! e2)) as (Hid2 & _ & _ & Hdes2 & HD2 & _).
  assert (effects w1 !!! e1 = g1 (effects w !!! e1)) as He11.
  { by rewrite Hef1, list_lookup_total_insert_eq. }
  assert (effects w1 !!! e2 = effects w !!! e2) as He12.
  { by rewrite Hef1, list_lookup_total_insert_ne. }
  assert (effects w2 !!! e1 = g1 (effects w !!! e1)) as He21.
  { by rewrite Hef2, list_lookup_total_insert_ne, He11. }
  assert (effects w2 !!! e2 = g2 (effects w !!! e2)) as He22.
  { rewrite Hef2, list_lookup_total_insert_eq, He12; [done|].
    by rewrite Hef1, length_insert. }
  assert (smap w2 c = omap_set id e2 (omap_set id e1 (smap w c))) as Hmap2.
  { unfold smap. rewrite Hch2, list_lookup_total_insert_eq
      by by rewrite Hch1, length_insert.
    cbn. rewrite He12, <- Hid. fold id.
    rewrite Hch1, list_lookup_total_insert_eq by done. done. }
  split; [by rewrite Hmap2, omap_get_set, String.eqb_refl|].
  rewrite (Destroy_single e1 c (length (HumanoidDataChanged (effects w !!! e1))) w2)
    by by rewrite He21, HD1, Hfresh.
  rewrite updateHumanoidProps_run, He21, Hid1. fold id.
  unfold smap at 1.
  cbn [fst snd chars effects signals tables charMaps producer set_humanoids].
  rewrite !list_lookup_total_insert_eq
    by (rewrite ?Hch2, ?Hef2, ?Hch1, ?Hef1, ?length_insert; done).
  rewrite list_lookup_total_insert_ne by done.
  cbn [statusEffects set_statusEffects se_destroyed set_HumanoidDataChanged
       set_se_destroyed].
  split; [done|]. split; [apply omap_get_delete_eq|]. split; [done|].
  rewrite He22. split; [exact Hdes2 | exact HD2].
Qed.

Lemma destroy_replaced_effect_removes_newer_witness :
  (0 < length (chars twinEffects))%nat
  ∧ se_id (effects twinEffects !!! 0%nat) = se_id (effects twinEffects !!! 1%nat)
  ∧ omap_get "t"
      (smap ((_addStatus 0%nat 0%nat ;; _addStatus 0%nat 1%nat) twinEffects).1 0)
    = Some 1%nat
  ∧ omap_get "t"
      (smap ((_addStatus 0%nat 0%nat ;; _addStatus 0%nat 1%nat ;;
              StatusEffect_Destroy 0%nat) twinEffects).1 0)
    = None
  ∧ se_destroyed
      (effects ((_addStatus 0%nat 0%nat ;; _addStatus 0%nat 1%nat ;;
                 StatusEffect_Destroy 0%nat) twinEffects).1 !!! 1%nat)
    = false.
Proof.
  assert (0 < length (chars twinEffects))%nat as Hc by (vm_compute; lia).
  assert (0 < length (effects twinEffects))%nat as H1 by (vm_compute; lia).
  assert (1 < length (effects twinEffects))%nat as H2 by (vm_compute; lia).
  assert (0%nat ≠ 1%nat) as Hne by lia.
  destruct (destroy_replaced_effect_removes_newer 0%nat 0%nat 1%nat twinEffects
              Hc H1 H2 Hne eq_refl eq_refl) as (Hget & _ & Hgone & _ & Hdes & _).
  split; [exact Hc|]. split; [reflexivity|].
  split; [exact Hget|]. split; [exact Hgone | exact Hdes].
Defined.

(** ** The constructor (lines 44-81) *)

Lemma insert_last {A : Type} `{!Inhabited A} (f : A → A) (l : list A) (x : A) :
  <[length l := f ((l ++ [x]) !!! length l)]> (l ++ [x]) = l ++ [f x].
Proof.
  rewrite list_lookup_total_middle by done.
  rewrite insert_app_r_alt by done. by rewrite Nat.sub_diag.
Qed.

(** The state after a construction whose four guards pass. *)
Lemma new_Character_run env (i : Instance) (canCreateClient : bool) (h : href) w :
  IsClient env && negb canCreateClient = false →
  (charMaps w !!! currentCharMap) !! i = None →
  getActiveHandler env = true →
  FindFirstChildOfClass_Humanoid env i = Some h →
  new_Character env i canCreateClient w =
    (mkWorld (tables w ++ [initialDefaults])
       (<[currentCharMap := <[i := length (chars w)]> (charMaps w !!! currentCharMap)]>
          (charMaps w))
       (chars w ++
          [mkCharacter i h [] (length (tables w))
             ((if IsClient env then [JDisconnect] else []) ++ [JDamageTaken; JDestroyed])])
       (effects w) (humanoids w)
       (signals w ++ [CharacterCreated (length (chars w))])
       (producer w ++
          if IsServer env
          then [setCharacterData i (mkCharacterData [] (length (tables w)))] else []),
     Ok (length (chars w))).
Proof.
  intros H1 H2 H3 H4.
  unfold new_Character, newTable, GetCharacterFromInstance, when, logError,
    setupReplication_Client, currentCharMap_set, fire, modifyChar, modify, get,
    mbind, Eff_bind, mret, Eff_ret.
  rewrite H1, H4, H3. unfold set_tables at 1. cbn [fst snd charMaps].
  rewrite H2. cbn [isNil negb].
  unfold set_chars, set_charMaps, set_signals, set_tables.
  cbn [fst snd tables charMaps chars effects humanoids signals producer].
  set (c := length (chars w)).
  destruct (IsClient env); cbn [negb fst snd chars];
    unfold set_chars; cbn [fst snd tables charMaps chars effects humanoids signals producer];
    rewrite !(insert_last _ (chars w)); cbn [set_janitor Instance_ Humanoid statusEffects
      defaultsProps janitor app];
    (rewrite updateHumanoidProps_all_exposed;
     [|unfold smap; cbn [chars]; subst c; rewrite list_lookup_total_middle by done;
       by apply Forall_nil]);
    unfold _packData, dispatch, getChar, modify, set_producer, mbind, Eff_bind,
      mret, Eff_ret;
    destruct (IsServer env);
    cbn [fst snd tables charMaps chars effects humanoids signals producer];
    subst c; rewrite ?list_lookup_total_middle by done;
    cbn [statusEffects defaultsProps packStatusEffects mret Eff_ret fst snd
         tables charMaps chars effects humanoids signals producer];
    unfold mret, Eff_ret;
    cbn [fst snd tables charMaps chars effects humanoids signals producer];
    rewrite ?app_nil_r; reflexivity.
Qed.

(** X13. A construction whose four guards pass returns a new character,
    registers it under the instance in the global map and leaves every other
    entry, every existing character, table, effect and humanoid as it was.
    The new character has no effect, its baseline is the initial one (16,
    100, true, 7.2), the created notification is sent, and on the server the
    producer receives the packed data: no effect, and the reference of the
    baseline table. *)
Theorem new_Character_registers env (i : Instance) (canCreateClient : bool) (h : href) w :
  IsClient env && negb canCreateClient = false →
  (charMaps w !!! currentCharMap) !! i = None →
  getActiveHandler env = true →
  FindFirstChildOfClass_Humanoid env i = Some h →
  (currentCharMap < length (charMaps w))%nat →
  let c := length (chars w) in
  let w' := (new_Character env i canCreateClient w).1 in
  (new_Character env i canCreateClient w).2 = Ok c
  ∧ (GetCharacterFromInstance i w').2 = Ok (Some c)
  ∧ (∀ j, j ≠ i → (GetCharacterFromInstance j w').2 = (GetCharacterFromInstance j w).2)
  ∧ (∀ c0, (c0 < length (chars w))%nat → chars w' !!! c0 = chars w !!! c0)
  ∧ Instance_ (chars w' !!! c) = i
  ∧ Humanoid (chars w' !!! c) = h
  ∧ smap w' c = []
  ∧ baseline w' c = initialDefaults
  ∧ (∀ l, (l < length (tables w))%nat → tables w' !!! l = tables w !!! l)
  ∧ effects w' = effects w
  ∧ humanoids w' = humanoids w
  ∧ signals w' = signals w ++ [CharacterCreated c]
  ∧ producer w'
    = producer w ++
        if IsServer env
        then [setCharacterData i (mkCharacterData [] (defaultsProps (chars w' !!! c)))]
        else [].
Proof.
  intros H1 H2 H3 H4 Hm c w'. subst c w'.
  rewrite (new_Character_run env i canCreateClient h w H1 H2 H3 H4).
  unfold GetCharacterFromInstance, smap, baseline.
  cbn [fst snd tables charMaps chars effects humanoids signals producer].
  rewrite !list_lookup_total_middle by done.
  rewrite list_lookup_total_insert_eq by done.
  cbn [Instance_ Humanoid statusEffects defaultsProps].
  rewrite ?list_lookup_total_middle by done.
  split; [done|]. split; [by rewrite lookup_insert_eq|].
  split; [intros j Hj; by rewrite lookup_insert_ne|].
  split; [intros c0 Hc0; by rewrite lookup_total_app_l|].
  split; [done|]. split; [done|]. split; [done|]. split; [done|].
  split; [intros l Hl; by rewrite lookup_total_app_l|].
  done.
Qed.

Lemma new_Character_registers_witness :
  (charMaps (engineWorld 16 []) !!! currentCharMap) !! 1%positive = None
  ∧ (new_Character serverEnv 1%positive false (engineWorld 16 [])).2 = Ok 0%nat
  ∧ (GetCharacterFromInstance 1%positive
       (new_Character serverEnv 1%positive false (engineWorld 16 [])).1).2
    = Ok (Some 0%nat)
  ∧ baseline (new_Character serverEnv 1%positive false (engineWorld 16 [])).1 0
    = initialDefaults.
Proof.
  assert (currentCharMap < length (charMaps (engineWorld 16 [])))%nat as Hm
    by (vm_compute; lia).
  destruct (new_Character_registers serverEnv 1%positive false 0%nat (engineWorld 16 [])
              eq_refl eq_refl eq_refl eq_refl Hm)
    as (Hok & Hget & _ & _ & _ & _ & _ & Hbase & _).
  split; [reflexivity|]. split; [exact Hok|]. split; [exact Hget | exact Hbase].
Defined.

(** X14. The constructor returns exactly when its four guards pass: it is
    not a manual construction on a client, the instance has no character
    yet, the handler is active and the instance has a humanoid. Nothing
    after the guards can fail. When it raises, the state is the one before,
    with the table of the field initializer added. *)
Theorem new_Character_returns_iff env (i : Instance) (canCreateClient : bool) w :
  ((∃ c, (new_Character env i canCreateClient w).2 = Ok c)
   ↔ IsClient env && negb canCreateClient = false
     ∧ (charMaps w !!! currentCharMap) !! i = None
     ∧ getActiveHandler env = true
     ∧ is_Some (FindFirstChildOfClass_Humanoid env i))
  ∧ ((∃ msg, (new_Character env i canCreateClient w).2 = Raise msg) →
       (new_Character env i canCreateClient w).1
       = set_tables (λ ts, ts ++ [initialDefaults]) w).
Proof.
  destruct (IsClient env && negb canCreateClient) eqn:E1;
    [|destruct ((charMaps w !!! currentCharMap) !! i) as [c0|] eqn:E2;
      [|destruct (getActiveHandler env) eqn:E3;
        [destruct (FindFirstChildOfClass_Humanoid env i) as [h|] eqn:E4|]]].
  5: { (* the handler is not active *)
    unfold new_Character, newTable, GetCharacterFromInstance, when, logError,
      mbind, Eff_bind, mret, Eff_ret.
    rewrite E1, E3. cbn [fst snd charMaps set_tables]. rewrite E2. cbn.
    split; [|done]. split; [by intros [c ?] | by intros (_ & _ & ? & _)]. }
  4: { (* no humanoid *)
    unfold new_Character, newTable, GetCharacterFromInstance, when, logError, error,
      mbind, Eff_bind, mret, Eff_ret.
    rewrite E1, E3, E4. cbn [fst snd charMaps set_tables]. rewrite E2. cbn.
    split; [|done]. split; [by intros [c ?] | by intros (_ & _ & _ & [? ?])]. }
  3: { (* every guard passes *)
    rewrite (new_Character_run env i canCreateClient h w E1 E2 E3 E4). cbn.
    split; [|by intros [msg ?]]. split; [|by eexists].
    intros _. by repeat split; eauto. }
  2: { (* the instance has a character *)
    unfold new_Character, newTable, GetCharacterFromInstance, when, logError,
      mbind, Eff_bind, mret, Eff_ret.
    rewrite E1. cbn [fst snd charMaps set_tables]. rewrite E2. cbn.
    split; [|done]. split; [by intros [c ?] | by intros (_ & ? & _)]. }
  (* manual construction on a client *)
  unfold new_Character, newTable, when, logError, mbind, Eff_bind, mret, Eff_ret.
  rewrite E1. cbn.
  split; [|done]. split; [by intros [c ?] | by intros (? & _)].
Qed.

(** ** Teardown of a character (lines 125-135) *)

(** The cleanup of the janitor rewrites connections only. *)
Lemma forEach_cleanup_run items w :
  ∃ es,
    forEach cleanup items w = (set_effects (λ _, es) w, Ok tt)
    ∧ length es = length (effects w)
    ∧ (∀ e, se_id (es !!! e) = se_id (effects w !!! e)
            ∧ se_destroyed (es !!! e) = se_destroyed (effects w !!! e)
            ∧ se_humanoidData (es !!! e) = se_humanoidData (effects w !!! e)
            ∧ Destroyed (es !!! e) = Destroyed (effects w !!! e)).
Proof.
  revert w. induction items as [|item items IH]; intros w.
  - exists (effects w). split; [by destruct w|]. done.
  - cbn [forEach]. unfold mbind, Eff_bind.
    assert (∃ es1, cleanup item w = (set_effects (λ _, es1) w, Ok tt)
                   ∧ length es1 = length (effects w)
                   ∧ (∀ e, se_id (es1 !!! e) = se_id (effects w !!! e)
                        ∧ se_destroyed (es1 !!! e) = se_destroyed (effects w !!! e)
                        ∧ se_humanoidData (es1 !!! e) = se_humanoidData (effects w !!! e)
                        ∧ Destroyed (es1 !!! e) = Destroyed (effects w !!! e)))
      as (es1 & -> & Hlen1 & H1).
    { destruct item as [| |Status conn|]; try (exists (effects w); by destruct w).
      eexists. split; [reflexivity|]. cbn [effects set_effects].
      split; [by rewrite length_insert|]. intros e.
      split; [by apply (lookup_total_modify se_id)|].
      split; [by apply (lookup_total_modify se_destroyed)|].
      split; [by apply (lookup_total_modify se_humanoidData)|].
      by apply (lookup_total_modify Destroyed). }
    destruct (IH (set_effects (λ _, es1) w)) as (es & -> & Hlen & H).
    exists es. cbn [effects set_effects] in *. split; [done|].
    split; [congruence|]. intros e.
    destruct (H e) as (-> & -> & -> & ->). apply H1.
Qed.

(** The state after [Destroy], field by field. *)
Lemma Destroy_facts env (c : cref) w :
  (c < length (chars w))%nat →
  (currentCharMap < length (charMaps w))%nat →
  let i := Instance_ (chars w !!! c) in
  let w' := (Destroy env c w).1 in
  (Destroy env c w).2 = Ok tt
  ∧ (GetCharacterFromInstance i w').2 = Ok None
  ∧ (∀ j, j ≠ i → (GetCharacterFromInstance j w').2 = (GetCharacterFromInstance j w).2)
  ∧ signals w' = signals w ++ [CharacterDestroyed c; DestroyedSignal c]
  ∧ producer w' = producer w ++ (if IsServer env then [deleteCharacterData i] else [])
  ∧ janitor (chars w' !!! c) = []
  ∧ smap w' c = smap w c
  ∧ (∀ e, se_destroyed (effects w' !!! e) = se_destroyed (effects w !!! e))
  ∧ same_handlers w w'
  ∧ tables w' = tables w
  ∧ humanoids w' = humanoids w
  ∧ length (chars w') = length (chars w)
  ∧ length (charMaps w') = length (charMaps w)
  ∧ length (effects w') = length (effects w)
  ∧ (∀ e, se_id (effects w' !!! e) = se_id (effects w !!! e)).
Proof.
  intros Hc Hm i w'. subst w'.
  unfold Destroy, getChar, mbind, Eff_bind. cbn [fst snd].
  destruct (forEach_cleanup_run (janitor (chars w !!! c)) w) as (es & -> & Hlen & Hes).
  unfold modifyChar, currentCharMap_delete, when, dispatch, fire, modify,
    GetCharacterFromInstance, smap, same_handlers, mret, Eff_ret.
  fold i.
  destruct (IsServer env);
    unfold set_chars, set_charMaps, set_signals, set_producer, set_effects;
    cbn [fst snd tables charMaps chars effects humanoids signals producer];
    rewrite !list_lookup_total_insert_eq by done;
    cbn [janitor statusEffects set_janitor];
    (split; [done|]); (split; [by rewrite lookup_delete_eq|]);
    (split; [intros j Hj; by rewrite lookup_delete_ne|]);
    (split; [by rewrite <- app_assoc|]);
    (split; [by rewrite ?app_nil_r|]);
    (split; [done|]); (split; [done|]);
    (split; [intros e; apply Hes|]); (split; [intros e; apply Hes|]);
    (split; [done|]); (split; [done|]);
    (split; [by rewrite length_insert|]); (split; [by rewrite length_insert|]);
    (split; [done|]); intros e; apply Hes.
Qed.

(** X15. [Destroy] returns and takes the entry of the instance out of the
    global map, leaving the other entries. Both destroyed notifications are
    sent, and on the server the producer receives [deleteCharacterData]. The
    janitor is emptied. The effects are left alone: the effect map of the
    character keeps its entries, no effect is destroyed, and every effect
    keeps the destruction handler that [_addStatus] registered. *)
Theorem Destroy_unregisters env (c : cref) w :
  (c < length (chars w))%nat →
  (currentCharMap < length (charMaps w))%nat →
  let i := Instance_ (chars w !!! c) in
  let w' := (Destroy env c w).1 in
  (Destroy env c w).2 = Ok tt
  ∧ (GetCharacterFromInstance i w').2 = Ok None
  ∧ (∀ j, j ≠ i → (GetCharacterFromInstance j w').2 = (GetCharacterFromInstance j w).2)
  ∧ signals w' = signals w ++ [CharacterDestroyed c; DestroyedSignal c]
  ∧ producer w' = producer w ++ (if IsServer env then [deleteCharacterData i] else [])
  ∧ janitor (chars w' !!! c) = []
  ∧ smap w' c = smap w c
  ∧ (∀ e, se_destroyed (effects w' !!! e) = se_destroyed (effects w !!! e))
  ∧ same_handlers w w'
  ∧ tables w' = tables w
  ∧ humanoids w' = humanoids w.
Proof.
  intros Hc Hm.
  destruct (Destroy_facts env c w Hc Hm)
    as (H1 & H2 & H3 & H4 & H5 & H6 & H7 & H8 & H9 & H10 & H11 & _).
  done.
Qed.

Lemma Destroy_unregisters_witness :
  (0 < length (chars attachedWorld))%nat
  ∧ (currentCharMap < length (charMaps attachedWorld))%nat
  ∧ (GetCharacterFromInstance 1%positive attachedWorld).2 = Ok (Some 0%nat)
  ∧ (GetCharacterFromInstance 1%positive (Destroy serverEnv 0%nat attachedWorld).1).2
    = Ok None
  ∧ smap (Destroy serverEnv 0%nat attachedWorld).1 0 = smap attachedWorld 0
  ∧ same_handlers attachedWorld (Destroy serverEnv 0%nat attachedWorld).1.
Proof.
  assert (0 < length (chars attachedWorld))%nat as Hc by (vm_compute; lia).
  assert (currentCharMap < length (charMaps attachedWorld))%nat as Hm
    by (vm_compute; lia).
  destruct (Destroy_unregisters serverEnv 0%nat attachedWorld Hc Hm)
    as (_ & Hgone & _ & _ & _ & _ & Hmap & _ & Hh & _).
  split; [exact Hc|]. split; [exact Hm|]. split; [reflexivity|].
  split; [exact Hgone|]. split; [exact Hmap | exact Hh].
Defined.

(** X16. After [Destroy] the instance is free again: constructing a
    character, destroying it and constructing over the same instance returns
    a second, different character, which the global map then holds for the
    instance. *)
Theorem construct_Destroy_construct env (i : Instance) (canCreateClient : bool)
    (h : href) w :
  IsClient env && negb canCreateClient = false →
  (charMaps w !!! currentCharMap) !! i = None →
  getActiveHandler env = true →
  FindFirstChildOfClass_Humanoid env i = Some h →
  (currentCharMap < length (charMaps w))%nat →
  let prog := c ← new_Character env i canCreateClient;
              Destroy env c;;
              new_Character env i canCreateClient in
  (prog w).2 = Ok (S (length (chars w)))
  ∧ (GetCharacterFromInstance i (prog w).1).2 = Ok (Some (S (length (chars w)))).
Proof.
  intros H1 H2 H3 H4 Hm prog. subst prog. unfold mbind, Eff_bind.
  rewrite (new_Character_run env i canCreateClient h w H1 H2 H3 H4).
  set (w1 := mkWorld _ _ _ _ _ _ _). set (c := length (chars w)).
  assert (c < length (chars w1))%nat as Hc1.
  { subst w1 c. cbn. rewrite length_app. cbn. lia. }
  assert (currentCharMap < length (charMaps w1))%nat as Hm1.
  { subst w1. cbn. by rewrite length_insert. }
  assert (Instance_ (chars w1 !!! c) = i) as Hi.
  { subst w1 c. cbn. by rewrite list_lookup_total_middle. }
  destruct (Destroy_facts env c w1 Hc1 Hm1)
    as (Hok & Hgone & _ & _ & _ & _ & _ & _ & _ & _ & _ & Hlen & Hlenm & _).
  rewrite Hi in Hgone.
  destruct (Destroy env c w1) as [w2 r2]. cbn [fst snd] in *. subst r2.
  unfold GetCharacterFromInstance in Hgone. cbn in Hgone.
  assert ((charMaps w2 !!! currentCharMap) !! i = None) as H2' by congruence.
  rewrite (new_Character_run env i canCreateClient h w2 H1 H2' H3 H4).
  unfold GetCharacterFromInstance.
  cbn [fst snd tables charMaps chars effects humanoids signals producer].
  rewrite list_lookup_total_insert_eq by (rewrite Hlenm; exact Hm1).
  rewrite lookup_insert_eq, Hlen. subst w1 c. cbn. rewrite length_app. cbn.
  by rewrite Nat.add_1_r.
Qed.

Lemma construct_Destroy_construct_witness :
  ((c ← new_Character serverEnv 1%positive false;
    Destroy serverEnv c;;
    new_Character serverEnv 1%positive false) (engineWorld 16 [])).2 = Ok 1%nat
  ∧ ((c ← new_Character serverEnv 1%positive false;
      new_Character serverEnv 1%positive false) (engineWorld 16 [])).2
    = Raise "Attempted to create 2 different characters over a same instance.".
Proof.
  assert (currentCharMap < length (charMaps (engineWorld 16 [])))%nat as Hm
    by (vm_compute; lia).
  split; [|reflexivity].
  exact (proj1 (construct_Destroy_construct serverEnv 1%positive false 0%nat
                  (engineWorld 16 []) eq_refl eq_refl eq_refl eq_refl Hm)).
Defined.

(** X17. [Destroy] does not take back the destruction handler that
    [_addStatus] registered: when an effect of a destroyed character is
    destroyed later, the handler still runs, removes the entry from the
    effect map of the destroyed character and sends the removed
    notification. *)
Theorem Destroy_leaves_effect_handlers env (c : cref) (Status : eref) (conn : nat) w :
  (c < length (chars w))%nat →
  (currentCharMap < length (charMaps w))%nat →
  (Status < length (effects w))%nat →
  Destroyed (effects w !!! Status) = [mkOnce c conn] →
  let prog := Destroy env c ;; StatusEffect_Destroy Status in
  (prog w).2 = Ok tt
  ∧ smap (prog w).1 c = omap_delete (se_id (effects w !!! Status)) (smap w c)
  ∧ signals (prog w).1
    = signals w ++ [CharacterDestroyed c; DestroyedSignal c;
                    StatusDestroyed Status; StatusEffectRemoved c Status]
  ∧ se_destroyed (effects (prog w).1 !!! Status) = true.
Proof.
  intros Hc Hm Hs Hh prog. subst prog. unfold mbind, Eff_bind.
  destruct (Destroy_facts env c w Hc Hm)
    as (Hok & _ & _ & Hsig & _ & _ & Hmap & _ & Hsame & _ & _ & Hlen & _ & Hlene & Hid).
  destruct (Destroy env c w) as [w1 r1]. cbn [fst snd] in *. subst r1.
  rewrite (Destroy_single Status c conn w1) by by rewrite Hsame.
  rewrite updateHumanoidProps_run. unfold smap in *.
  cbn [fst snd tables charMaps chars effects humanoids signals producer set_humanoids].
  rewrite !list_lookup_total_insert_eq by (rewrite ?Hlen, ?Hlene; done).
  cbn [statusEffects set_statusEffects se_destroyed set_HumanoidDataChanged
       set_se_destroyed].
  rewrite Hid, Hmap, Hsig, <- app_assoc. done.
Qed.

Lemma Destroy_leaves_effect_handlers_witness :
  (0 < length (chars attachedWorld))%nat
  ∧ Destroyed (effects attachedWorld !!! 0%nat) = [mkOnce 0 0]
  ∧ smap attachedWorld 0 = [("a", 0%nat)]
  ∧ smap ((Destroy serverEnv 0%nat ;; StatusEffect_Destroy 0%nat) attachedWorld).1 0
    = omap_delete (se_id (effects attachedWorld !!! 0%nat)) (smap attachedWorld 0).
Proof.
  assert (0 < length (chars attachedWorld))%nat as Hc by (vm_compute; lia).
  assert (currentCharMap < length (charMaps attachedWorld))%nat as Hm
    by (vm_compute; lia).
  assert (0 < length (effects attachedWorld))%nat as Hs by (vm_compute; lia).
  split; [exact Hc|]. split; [reflexivity|]. split; [reflexivity|].
  exact (proj1 (proj2 (Destroy_leaves_effect_handlers serverEnv 0%nat 0%nat 0%nat
                         attachedWorld Hc Hm Hs eq_refl))).
Defined.

(** ** Snapshots and cycles *)

Lemma forEach_noop {A : Type} (body : A → Eff unit) (l : list A) w :
  (∀ x, x ∈ l → body x w = (w, Ok tt)) → forEach body l w = (w, Ok tt).
Proof.
  induction l as [|x l IH]; intros H; cbn [forEach]; [done|].
  erewrite bind_Ok; [|apply H; by left]. apply IH. intros y Hy. apply H. by right.
Qed.

(** The ids of a packed map: those of the accumulator and those of the
    effect map. *)
Lemma packStatusEffects_keys m acc w :
  ∃ packed,
    packStatusEffects m acc w = (w, Ok packed)
    ∧ ∀ k, omap_get k packed = None ↔ omap_get k acc = None ∧ omap_get k m = None.
Proof.
  revert acc. induction m as [|[Id Status] m IH]; intros acc; cbn [packStatusEffects].
  - exists acc. split; [done|]. intros k. cbn. tauto.
  - unfold Status_packData, getStatus, mbind, Eff_bind, mret, Eff_ret.
    destruct (IH (omap_set Id (mkStatusData (se_className (effects w !!! Status))) acc))
      as (packed & Hrun & Hkeys).
    exists packed. split; [exact Hrun|]. intros k. rewrite Hkeys, omap_get_set. cbn.
    destruct (String.eqb k Id); [|done]. split; intros [? ?]; done.
Qed.

(** Over a map (no id twice), packing appends one entry for each entry of
    the effect map, in its order. *)
Lemma packStatusEffects_app m acc w :
  NoDup (acc.*1 ++ m.*1) →
  packStatusEffects m acc w
  = (w, Ok (acc ++ (prod_map id (λ e, mkStatusData (se_className (effects w !!! e)))
                      <$> m))).
Proof.
  revert acc. induction m as [|[Id Status] m IH]; intros acc Hnd;
    cbn [packStatusEffects].
  - cbn. by rewrite app_nil_r.
  - unfold Status_packData, getStatus, mbind, Eff_bind, mret, Eff_ret.
    cbn in Hnd. rewrite omap_set_absent.
    + rewrite IH.
      * cbn. by rewrite <- app_assoc.
      * rewrite fmap_app. cbn. by rewrite <- app_assoc.
    + apply omap_get_None. apply NoDup_app in Hnd as (_ & Hdisj & _).
      intros Hin. apply (Hdisj Id Hin). by left.
Qed.

(** A cycle whose snapshot holds no id that the local map lacks, lacks no
    id that the local map holds, and refers to the baseline table of the
    character, changes nothing. *)
Lemma onCharacterData_in_sync env c d w :
  (∀ k, omap_has k (cd_statusEffects d) = omap_has k (smap w c)) →
  cd_defaultProps d = defaultsProps (chars w !!! c) →
  onCharacterData env c (Some d) w = (w, Ok tt).
Proof.
  intros Hkeys Hdef. unfold onCharacterData.
  erewrite bind_Ok; cycle 1.
  { apply forEach_noop. intros [Id Data] Hin. apply addMissing_present.
    assert (omap_has Id (smap w c) = true) as Hhas.
    { rewrite <- Hkeys. apply omap_has_true, list_elem_of_fmap. by exists (Id, Data). }
    unfold omap_has in Hhas. by destruct (omap_get Id (smap w c)). }
  erewrite bind_Ok; [|reflexivity].
  erewrite bind_Ok; cycle 1.
  { apply forEach_noop. intros [k e] Hin.
    unfold destroyStale, getChar, mbind, Eff_bind. cbn [fst snd].
    fold (smap w c). fold (smap w c) in Hin.
    assert (omap_has k (cd_statusEffects d) = true) as ->.
    { rewrite Hkeys. apply omap_has_true, list_elem_of_fmap. by exists (k, e). }
    destruct (omap_get k (smap w c)); [|done]. cbn [negb]. by rewrite andb_false_r. }
  erewrite bind_Ok; [|reflexivity].
  by rewrite Hdef, Nat.eqb_refl.
Qed.

(** X18. A reconciliation cycle against a snapshot that has exactly the ids
    of the local effect map and refers to the cached baseline table is a
    no-op: it returns and the process is as it was. No effect is constructed
    or destroyed, whatever the class names of the snapshot are and whether
    they are registered. *)
Theorem onCharacterData_in_sync_noop env (c : cref) (d : CharacterData) w :
  (∀ k, omap_has k (cd_statusEffects d) = omap_has k (smap w c)) →
  cd_defaultProps d = defaultsProps (chars w !!! c) →
  onCharacterData env c (Some d) w = (w, Ok tt).
Proof. apply onCharacterData_in_sync. Qed.

Lemma onCharacterData_in_sync_noop_witness :
  smap staleWorld 0 = [("old", 0%nat)]
  ∧ GetRegisteredStatusEffectConstructor clientEnv "Unknown" = None
  ∧ onCharacterData clientEnv 0%nat
      (Some (mkCharacterData [("old", mkStatusData "Unknown")] 0%nat)) staleWorld
    = (staleWorld, Ok tt).
Proof.
  split; [reflexivity|]. split; [reflexivity|].
  apply (onCharacterData_in_sync_noop clientEnv 0%nat
           (mkCharacterData [("old", mkStatusData "Unknown")] 0%nat) staleWorld);
    [|reflexivity].
  intros k. change (smap staleWorld 0) with [("old", 0%nat)].
  unfold omap_has. cbn [cd_statusEffects omap_get]. by destruct (String.eqb k "old").
Defined.

Lemma omap_get_fmap_snd {V W : Type} (f : V → W) k (m : list (string * V)) :
  omap_get k (prod_map id f <$> m) = f <$> omap_get k m.
Proof.
  induction m as [|[k0 v0] m IH]; cbn; [done|].
  by destruct (String.eqb k k0).
Qed.

Lemma fst_fmap_snd {V W : Type} (f : V → W) (m : list (string * V)) :
  (prod_map id f <$> m).*1 = m.*1.
Proof. induction m as [|[k0 v0] m IH]; cbn; [done|]. by rewrite IH. Qed.

(** X19. [_packData] reads only: the process is as it was. Over an effect
    map, the packed map is a map with as many entries as the effect map: it
    holds an id exactly when the effect map holds it, with the class name of
    the effect that the effect map holds under the id. The packed baseline
    is the reference that the character holds. *)
Theorem packData_content (c : cref) w :
  NoDup (smap w c).*1 →
  ∃ d,
    _packData c w = (w, Ok d)
    ∧ cd_defaultProps d = defaultsProps (chars w !!! c)
    ∧ NoDup (cd_statusEffects d).*1
    ∧ length (cd_statusEffects d) = length (smap w c)
    ∧ ∀ k, omap_get k (cd_statusEffects d)
           = (λ e, mkStatusData (se_className (effects w !!! e)))
               <$> omap_get k (smap w c).
Proof.
  intros Hnd. unfold _packData, getChar, mbind, Eff_bind, mret, Eff_ret.
  fold (smap w c). rewrite packStatusEffects_app by done.
  eexists. split; [reflexivity|]. cbn [cd_statusEffects cd_defaultProps app].
  split; [done|]. split; [by rewrite fst_fmap_snd|].
  split; [by rewrite length_fmap|]. intros k. apply omap_get_fmap_snd.
Qed.

Lemma packData_content_witness :
  NoDup (smap attachedWorld 0).*1
  ∧ smap attachedWorld 0 = [("a", 0%nat)]
  ∧ ∃ d,
      _packData 0%nat attachedWorld = (attachedWorld, Ok d)
      ∧ cd_defaultProps d = 0%nat
      ∧ length (cd_statusEffects d) = 1%nat
      ∧ omap_get "a" (cd_statusEffects d) = Some (mkStatusData "Plain").
Proof.
  assert (NoDup (smap attachedWorld 0).*1) as Hnd by (apply NoDup_singleton).
  split; [exact Hnd|]. split; [reflexivity|].
  destruct (packData_content 0%nat attachedWorld Hnd) as (d & H1 & H2 & _ & H4 & H5).
  exists d. split; [exact H1|]. split; [exact H2|]. split; [exact H4|].
  exact (H5 "a").
Defined.

(** X20. A snapshot packed from a character and fed to the reconciliation
    cycle of the same character changes nothing: the cycle returns,
    constructs and destroys no effect and does not set the baseline. *)
Theorem pack_then_reconcile_noop env (c : cref) w :
  (d ← _packData c; onCharacterData env c (Some d)) w = (w, Ok tt).
Proof.
  unfold _packData at 1, getChar at 1.
  unfold mbind at 1 2 3, Eff_bind, mret, Eff_ret.
  destruct (packStatusEffects_keys (statusEffects (chars w !!! c)) [] w)
    as (packed & -> & Hkeys).
  apply onCharacterData_in_sync; [|done]. cbn [cd_statusEffects].
  intros k. unfold omap_has, smap. specialize (Hkeys k). cbn in Hkeys.
  destruct (omap_get k packed), (omap_get k (statusEffects (chars w !!! c)));
    try done.
  - by pose proof (proj2 Hkeys (conj eq_refl eq_refl)).
  - by destruct (proj1 Hkeys eq_refl) as [_ ?].
Qed.

(** ** The effect map stays well formed through a cycle *)

Lemma preserves_bind {A B : Type} (P : World → Prop) (m : Eff A) (f : A → Eff B) :
  preserves P m → (∀ a, preserves P (f a)) → preserves P (m ≫= f).
Proof.
  intros Hm Hf w HP. unfold mbind, Eff_bind.
  specialize (Hm w HP). destruct (m w) as [w' [a|msg]]; cbn in *; [|done].
  by apply Hf.
Qed.

Lemma preserves_forEach {A : Type} (P : World → Prop) (body : A → Eff unit) l :
  (∀ x, preserves P (body x)) → preserves P (forEach body l).
Proof.
  intros Hb. induction l as [|x l IH]; cbn [forEach].
  - by intros w HP.
  - apply preserves_bind; [apply Hb | intros _; apply IH].
Qed.

Lemma preserves_wf_addMissing env c entry :
  preserves (wf_char c) (addMissing env c entry).
Proof.
  intros w [Hc [Hnd Hin]]. destruct entry as [Id Data].
  destruct (omap_get Id (smap w c)) as [e|] eqn:Hget.
  { rewrite addMissing_present by congruence. done. }
  destruct (GetRegisteredStatusEffectConstructor env (className Data))
    as [ctor|] eqn:Hreg.
  - destruct (addMissing_absent env c Id Data ctor w Hc Hget Hreg)
      as (x & w' & Hrun & Heff & Hid & _ & _ & Hsmap).
    pose proof (keeps_CharFrame_addMissing env c (Id, Data) w) as HF.
    rewrite Hrun in *. cbn [fst] in *.
    split; [by rewrite (fr_chars _ _ HF)|]. unfold wf_map. rewrite Hsmap, Heff.
    split.
    + rewrite fmap_app. apply NoDup_app. split; [done|]. split; [|apply NoDup_singleton].
      intros k Hk ->%list_elem_of_singleton. by apply omap_get_None in Hget.
    + intros k e [Hel|Hel%list_elem_of_singleton]%elem_of_app; rewrite length_app; cbn.
      * destruct (Hin k e Hel) as [Hk Hlt].
        rewrite lookup_total_app_l by done. split; [done | lia].
      * simplify_eq. rewrite list_lookup_total_middle by done. split; [done | lia].
  - unfold addMissing, processStatusAddition, getChar, mbind, Eff_bind. cbn [fst snd].
    fold (smap w c). rewrite Hget, Hreg. cbn. by split.
Qed.

Lemma preserves_wf_Destroy c Status :
  preserves (wf_char c) (StatusEffect_Destroy Status).
Proof.
  intros w [Hc Hwf].
  pose proof (keeps_shrinks_Destroy Status w) as Hsh.
  pose proof (keeps_EffectFrame_Destroy Status w) as HE.
  pose proof (keeps_CharFrame_Destroy Status w) as HC.
  split; [by rewrite (fr_chars _ _ HC)|]. by eapply wf_map_shrinks.
Qed.

Lemma preserves_wf_destroyStale c S entry :
  preserves (wf_char c) (destroyStale c S entry).
Proof.
  intros w Hwf. unfold destroyStale, getChar, mbind, Eff_bind. cbn [fst snd].
  destruct (omap_get _ _) as [Status|]; [|done].
  destruct (_ && _); [|done]. by apply preserves_wf_Destroy.
Qed.

Lemma preserves_wf_SetDefaultProps env c Props :
  preserves (wf_char c) (SetDefaultProps env c Props).
Proof.
  intros w [Hc [Hnd Hin]]. split.
  - rewrite SetDefaultProps_run. cbn. by rewrite length_insert.
  - unfold wf_map. rewrite SetDefaultProps_smap. split; [done|].
    rewrite SetDefaultProps_run. cbn [fst effects]. exact Hin.
Qed.

(** X21. A reconciliation cycle keeps the effect map of the character well
    formed, whatever the snapshot holds and whether the cycle returns or
    stops at an unregistered class: no id occurs twice in the map, and every
    entry holds an effect of the heap whose id is the key of the entry. *)
Theorem onCharacterData_keeps_wf env (c : cref) (data : option CharacterData) w :
  wf_char c w → wf_char c (onCharacterData env c data w).1.
Proof.
  revert w. change (preserves (wf_char c) (onCharacterData env c data)).
  destruct data as [d|]; [|by intros w Hw]. unfold onCharacterData.
  apply preserves_bind; [apply preserves_forEach, preserves_wf_addMissing|intros _].
  apply preserves_bind; [by intros w Hw|intros this].
  apply preserves_bind; [apply preserves_forEach, preserves_wf_destroyStale|intros _].
  apply preserves_bind; [by intros w Hw|intros this'].
  unfold when. destruct (negb _); [apply preserves_wf_SetDefaultProps | by intros w Hw].
Qed.

Lemma onCharacterData_keeps_wf_witness :
  wf_char 0 staleWorld
  ∧ wf_char 0 (onCharacterData clientEnv 0%nat (Some snapshotX) staleWorld).1
  ∧ smap (onCharacterData clientEnv 0%nat (Some snapshotX) staleWorld).1 0
    = [("x", 1%nat)].
Proof.
  assert (wf_char 0 staleWorld) as Hwf.
  { split; [vm_compute; lia|]. split; [apply NoDup_singleton|].
    intros k e Hin. change (smap staleWorld 0) with [("old", 0%nat)] in Hin.
    apply list_elem_of_singleton in Hin. simplify_eq. split; [reflexivity|].
    vm_compute; lia. }
  split; [exact Hwf|]. split; [|reflexivity].
  exact (onCharacterData_keeps_wf clientEnv 0%nat (Some snapshotX) staleWorld Hwf).
Defined.

(** ** The baseline and the humanoid *)

Lemma collected_existsb c w :
  existsb (λ entry, isNil (se_humanoidData (effects w !!! entry.2))) (smap w c)
  = match collected w c with [] => false | _ :: _ => true end.
Proof.
  unfold collected. induction (smap w c) as [|[k e] m IH]; [done|].
  cbn. destruct (isNil _); [done | exact IH].
Qed.

(** X22. [SetDefaultProps] does not touch the humanoid: the live properties
    stay as they are until the next recomputation pass, and that pass brings
    the new baseline to the humanoid exactly when some attached effect
    exposes no humanoid data. [GetDefaultsProps] after [SetDefaultProps]
    reads the fields of the table that was set. *)
Theorem SetDefaultProps_defers_humanoid env (c : cref) (Props : loc) w :
  (c < length (chars w))%nat →
  (Humanoid (chars w !!! c) < length (humanoids w))%nat →
  humanoids (SetDefaultProps env c Props w).1 = humanoids w
  ∧ ((SetDefaultProps env c Props ;; l ← GetDefaultsProps c; readTable l) w).2
    = Ok (tables w !!! Props)
  ∧ live ((SetDefaultProps env c Props ;; updateHumanoidProps c) w).1 c
    = (if existsb (λ entry, isNil (se_humanoidData (effects w !!! entry.2))) (smap w c)
       then tables w !!! Props else live w c).
Proof.
  intros Hc Hh. unfold mbind, Eff_bind. rewrite SetDefaultProps_run.
  split; [done|]. split.
  - unfold GetDefaultsProps, getChar, table_clone, readTable, mbind, Eff_bind.
    cbn [fst snd tables chars set_tables].
    rewrite list_lookup_total_insert_eq by done. cbn [defaultsProps set_defaultsProps].
    by rewrite list_lookup_total_middle.
  - set (w1 := mkWorld _ _ _ _ _ _ _).
    assert (smap w1 c = smap w c) as Hsmap.
    { unfold smap. subst w1. cbn. by rewrite list_lookup_total_insert_eq. }
    assert (collected w1 c = collected w c) as Hcol.
    { unfold collected. by rewrite Hsmap. }
    assert (Humanoid (chars w1 !!! c) = Humanoid (chars w !!! c)) as Hhum.
    { subst w1. cbn. by rewrite list_lookup_total_insert_eq. }
    assert (baseline w1 c = tables w !!! Props) as Hbase.
    { unfold baseline. subst w1. cbn. by rewrite list_lookup_total_insert_eq. }
    rewrite updateHumanoidProps_run, recompute_baseline, collected_existsb, Hcol.
    unfold live. cbn [fst snd humanoids chars set_humanoids].
    rewrite Hbase. fold (chars w1). rewrite Hhum.
    destruct (collected w c) as [|s l]; [done|].
    by rewrite list_lookup_total_insert_eq.
Qed.

Lemma SetDefaultProps_defers_humanoid_witness :
  (0 < length (chars twinWorld))%nat
  ∧ tables twinWorld !!! 1%nat = initialDefaults
  ∧ WalkSpeed (live twinWorld 0) = 16%Q
  ∧ humanoids (SetDefaultProps clientEnv 0%nat 1%nat twinWorld).1 = humanoids twinWorld
  ∧ ((SetDefaultProps clientEnv 0%nat 1%nat ;;
      l ← GetDefaultsProps 0%nat; readTable l) twinWorld).2
    = Ok (tables twinWorld !!! 1%nat).
Proof.
  assert (0 < length (chars twinWorld))%nat as Hc by (vm_compute; lia).
  assert (Humanoid (chars twinWorld !!! 0%nat) < length (humanoids twinWorld))%nat
    as Hh by (vm_compute; lia).
  destruct (SetDefaultProps_defers_humanoid clientEnv 0%nat 1%nat twinWorld Hc Hh)
    as (H1 & H2 & _).
  split; [exact Hc|]. split; [reflexivity|]. split; [reflexivity|].
  split; [exact H1 | exact H2].
Defined.
